(** * revad: reverse-mode automatic differentiation on a dynamically built graph

    A shallow embedding of [revad.py].  Python objects of class [Var] live in
    a store indexed by creation order; a reference to a [Var] is its index.
    Floats are the binary64 numbers of [PrimFloat], whose operations are
    specified by IEEE-754 ([FloatAxioms]). *)

From Stdlib Require Import ZArith Lia Bool Floats.
From stdpp Require Import base option list relations.

Set Warnings "-inexact-float".
Open Scope float_scope.

(** ** The store and the monad of state and failure *)

(** A reference to an object: its index in the store. *)
Abbreviation addr := nat.

Module Var.

(** One object of class [Var]: the three attributes set by [__init__]. *)
Record t := mk {
  value : float;
  children : list (float * addr);
  grad_value : option float
}.

End Var.

Abbreviation heap := (list Var.t).

(** A computation reads and updates the store and may fail: [None] stands for
    a reference that names no object (which Python rules out) and, in [grad],
    for a recursion deeper than the allotted depth. *)
Definition M (A : Type) : Type := heap -> option (A * heap).

Definition ret {A} (a : A) : M A := fun h => Some (a, h).

Definition bind {A B} (m : M A) (k : A -> M B) : M B :=
  fun h => match m h with
           | Some (a, h') => k a h'
           | None => None
           end.

Definition raise {A} : M A := fun _ => None.

Declare Scope heap_monad_scope.
Delimit Scope heap_monad_scope with M.
Notation "'let*' x ':=' m 'in' k" := (bind m (fun x => k))
  (at level 10, x pattern, m at level 100, k at level 200) : heap_monad_scope.
Notation "m ';;' k" := (bind m (fun _ => k))
  (at level 100, k at level 200, right associativity) : heap_monad_scope.

(** Attribute read [var.attr] / whole-object read. *)
Definition load (a : addr) : M Var.t :=
  fun h => match h !! a with
           | Some v => Some (v, h)
           | None => None
           end.

(** Store an object back at an existing address. *)
Definition store (a : addr) (v : Var.t) : M unit :=
  fun h => match h !! a with
           | Some _ => Some (tt, <[a := v]> h)
           | None => None
           end.

Module VarOps.
Import Var.
Local Open Scope heap_monad_scope.

(** [Var(value)]: a fresh object, no children, no gradient. *)
Definition __init__ (value : float) : M addr :=
  fun h => Some (length h, h ++ [mk value [] None]).

(** [self.children.append(e)]. *)
Definition children_append (self : addr) (e : float * addr) : M unit :=
  let* v := load self in
  store self (mk (value v) (children v ++ [e]) (grad_value v)).

(** [self.value]. *)
Definition get_value (self : addr) : M float :=
  let* v := load self in ret (value v).

(** [self.grad_value = g]. *)
Definition set_grad_value (self : addr) (g : float) : M unit :=
  let* v := load self in
  store self (mk (value v) (children v) (Some g)).

(** [Var.__add__]. *)
Definition __add__ (self other : addr) : M addr :=
  let* a := get_value self in
  let* b := get_value other in
  let* z := __init__ (a + b) in
  children_append self (1.0, z) ;;
  children_append other (1.0, z) ;;
  ret z.

(** [Var.__mul__]. *)
Definition __mul__ (self other : addr) : M addr :=
  let* a := get_value self in
  let* b := get_value other in
  let* z := __init__ (a * b) in
  (let* b' := get_value other in children_append self (b', z)) ;;
  (let* a' := get_value self in children_append other (a', z)) ;;
  ret z.

(** [sum(term(e) for e in l)]: the terms are produced in list order and
    added up from the left, as the language reference defines [sum].
    Python's [sum] starts from the integer [0], which float arithmetic
    coerces to [+0.0] and which compares equal to it; the accumulator starts
    at [+0.0].  (CPython from 3.12 on also carries a compensation term for
    the rounding errors of a float sum; it leaves sums of at most two terms
    as they are, and is not modelled.) *)
Fixpoint sum_gen (term : float * addr -> M float) (l : list (float * addr))
    (acc : float) : M float :=
  match l with
  | [] => ret acc
  | e :: l' => let* t := term e in sum_gen term l' (acc + t)
  end.

(** [Var.grad], with the depth of the Python call stack made explicit:
    [grad depth self] may use [depth] nested frames. *)
Fixpoint grad (depth : nat) (self : addr) : M float :=
  match depth with
  | O => raise
  | S depth' =>
      let* v := load self in
      match grad_value v with
      | Some g => ret g
      | None =>
          let* s := sum_gen
                      (fun '(weight, var) =>
                         let* g := grad depth' var in ret (weight * g))
                      (children v) 0 in
          set_grad_value self s ;;
          ret s
      end
  end.

End VarOps.

(** ** The module-level function [sin] and the script

    [math.sin] and [math.cos] belong to Python's standard library, not to this
    repository: they are parameters here, and may raise ([None]). *)
Section Math.
Variables math_sin math_cos : float -> option float.
Import Var VarOps.
Local Open Scope heap_monad_scope.

Definition call (r : option float) : M float :=
  fun h => match r with
           | Some y => Some (y, h)
           | None => None
           end.

(** [sin(x)]. *)
Definition sin (x : addr) : M addr :=
  let* s := (let* xv := get_value x in call (math_sin xv)) in
  let* z := __init__ s in
  (let* c := (let* xv := get_value x in call (math_cos xv)) in
   children_append x (c, z)) ;;
  ret z.

(** [abs(a - b) <= tol], the shape of the script's assertions. *)
Definition within (tol a b : float) : bool := abs (a - b) <=? tol.

(** The statements of the script down to the seeding of [z]; the result is
    the triple of references [(x, y, z)]. *)
Definition script_build : M (addr * addr * addr) :=
  let* x := __init__ 0.5 in
  let* y := __init__ 4.2 in
  let* z := (let* xy := __mul__ x y in
             let* sx := sin x in
             __add__ xy sx) in
  set_grad_value z 1.0 ;;
  ret (x, y, z).

(** The three assertions, with the tolerance as a parameter (the script
    uses 1e-15); the result is the three truth values. *)
Definition script_asserts (depth : nat) (tol : float)
    (xyz : addr * addr * addr) : M (bool * bool * bool) :=
  let '(x, y, z) := xyz in
  let* a1 := (let* zv := get_value z in
              ret (within tol zv 2.579425538604203)) in
  let* a2 := (let* gx := grad depth x in
              let* yv := get_value y in
              let* c := (let* xv := get_value x in call (math_cos xv)) in
              ret (within tol gx (yv + c))) in
  let* a3 := (let* gy := grad depth y in
              let* xv := get_value x in
              ret (within tol gy xv)) in
  ret (a1, a2, a3).

Definition script (depth : nat) (tol : float) : M (bool * bool * bool) :=
  let* xyz := script_build in script_asserts depth tol xyz.

End Math.

Import Var VarOps.

(** ** Definitions used to state the properties *)


(** The edges an operation appends to node [n] when its argument at one
    position is [arg]: one edge if [n] is that argument, none otherwise. *)
Definition edge_for (n arg : addr) (e : float * addr) : list (float * addr) :=
  if decide (n = arg) then [e] else [].

(** What a forward operation leaves behind: the store [h'] is [h] with one
    more object [out] at the fresh address [length h], and every old node [n]
    keeps its value and gradient and has [edges n] appended to its children. *)
Definition extends_with (h h' : heap) (out : Var.t)
    (edges : addr -> list (float * addr)) : Prop :=
  h !! length h = None /\
  length h' = S (length h) /\
  h' !! length h = Some out /\
  forall n v, h !! n = Some v ->
    h' !! n = Some (mk (value v) (children v ++ edges n) (grad_value v)).

(** ** What [grad] computes

    The recursive definition of the specification, read on a fixed store
    without any caching being written: the total derivative of a node is its
    cached gradient when one is set, and otherwise the sum, accumulated from
    the left from 0, of [weight * (total derivative of consumer)] over its
    children. *)
Inductive derivative (h : heap) : addr -> float -> Prop :=
| derivative_cached n v g :
    h !! n = Some v -> grad_value v = Some g -> derivative h n g
| derivative_sum n v s :
    h !! n = Some v -> grad_value v = None ->
    weighted_sum h (children v) 0 s -> derivative h n s
with weighted_sum (h : heap) : list (float * addr) -> float -> float -> Prop :=
| weighted_sum_nil acc : weighted_sum h [] acc acc
| weighted_sum_cons w c l acc g s :
    derivative h c g -> weighted_sum h l (acc + w * g) s ->
    weighted_sum h ((w, c) :: l) acc s.

Scheme derivative_mut := Minimality for derivative Sort Prop
  with weighted_sum_mut := Minimality for weighted_sum Sort Prop.
Combined Scheme derivative_weighted_sum_ind
  from derivative_mut, weighted_sum_mut.


(** [h'] is [h] with more gradients cached: same nodes, same values and
    children, every gradient cached in [h] still cached with the same number,
    and every newly cached gradient equal to the node's total derivative in
    [h]. *)
Definition memo_extends (h h' : heap) : Prop :=
  length h' = length h /\
  forall n v, h !! n = Some v ->
    exists v', h' !! n = Some v' /\
      value v' = value v /\ children v' = children v /\
      (grad_value v' = grad_value v \/
       grad_value v = None /\
       exists g, grad_value v' = Some g /\ derivative h n g).

(** Node [n] has the gradient [g] cached in [h]. *)
Definition cached (h : heap) (n : addr) (g : float) : Prop :=
  exists v, h !! n = Some v /\ grad_value v = Some g.

(** The term of the generator in [grad]: [weight * var.grad()]. *)
Definition grad_term (depth : nat) : float * addr -> M float :=
  fun '(weight, var) => (let* g := grad depth var in ret (weight * g))%M.

(** ** Construction order and the depth of the graph *)

(** Every children edge points to a node created strictly later. *)
Definition edges_later (h : heap) : Prop :=
  forall n v w c, h !! n = Some v -> (w, c) ∈ children v -> n < c < length h.

(** [c] is a consumer of [n]: some children edge of [n] points to [c]. *)
Definition child_edge (h : heap) (n c : addr) : Prop :=
  exists v w, h !! n = Some v /\ (w, c) ∈ children v.

(** The number of nodes on the longest path of children edges from [n],
    explored through at most [fuel] nodes. *)
Fixpoint height (fuel : nat) (h : heap) (n : addr) : nat :=
  match fuel with
  | O => O
  | S fuel' =>
      match h !! n with
      | None => O
      | Some v => S (max_list (map (fun e => height fuel' h e.2) (children v)))
      end
  end.

(** The depth of the graph below [n]; a path from [n] visits nodes in
    increasing creation order, so it has at most [length h - n] nodes. *)
Definition graph_depth (h : heap) (n : addr) : nat := height (length h - n) h n.

(** ** Stores that the program can reach *)

Section Reachable.
Variables math_sin math_cos : float -> option float.

(** One statement of the forward pass. *)
Inductive forward_op : heap -> heap -> Prop :=
| op_init value h z h' :
    __init__ value h = Some (z, h') -> forward_op h h'
| op_add self other h z h' :
    __add__ self other h = Some (z, h') -> forward_op h h'
| op_mul self other h z h' :
    __mul__ self other h = Some (z, h') -> forward_op h h'
| op_sin x h z h' :
    sin math_sin math_cos x h = Some (z, h') -> forward_op h h'.

(** One statement of the reverse pass: seeding a root with 1.0, or a call
    of [grad]. *)
Inductive reverse_op : heap -> heap -> Prop :=
| op_seed z h h' :
    set_grad_value z 1 h = Some (tt, h') -> reverse_op h h'
| op_grad depth n h g h' :
    grad depth n h = Some (g, h') -> reverse_op h h'.

(** Graphs built by the forward operations alone. *)
Definition forward_built (h : heap) : Prop := rtc forward_op [] h.

(** Stores reached by any sequence of forward operations, seedings and
    [grad] calls. *)
Definition reachable (h : heap) : Prop :=
  rtc (fun h h' => forward_op h h' \/ reverse_op h h') [] h.

End Reachable.

(** ** Further definitions for the properties *)

(** Every recorded weight is a finite float. *)
Definition weights_finite (h : heap) : bool :=
  forallb (fun v => forallb (fun e => is_finite e.1) (children v)) h.

(** One successful call of [grad], on any node and at any depth. *)
Definition grad_call (h h' : heap) : Prop :=
  exists depth n g, grad depth n h = Some (g, h').

(** The multi-use scenario: [x = Var(xv); y = x * x; y.grad_value = 1.0]
    followed by [x.grad()]. *)
Definition square_grad (depth : nat) (xv : float) : M float :=
  (let* x := __init__ xv in
   let* y := __mul__ x x in
   set_grad_value y 1.0 ;;
   grad depth x)%M.

(** A forward pass on finite inputs that records an infinite weight:
    [x = Var(1e200); y = x * x; z = x * y]; the result is [(x, z)]. *)
Definition overflow_build : M (addr * addr) :=
  (let* x := __init__ 1e200 in
   let* y := __mul__ x x in
   let* z := __mul__ x y in
   ret (x, z))%M.

(** [g = x.grad(); r.grad_value = 1.0; g' = x.grad()]: a gradient requested
    before and after a root is seeded; the result is [(g, g')]. *)
Definition grad_seed_grad (depth : nat) (x r : addr) : M (float * float) :=
  (let* g := grad depth x in
   set_grad_value r 1.0 ;;
   let* g' := grad depth x in
   ret (g, g'))%M.

(** Stand-ins for [math.sin] and [math.cos] that return, at every argument,
    the doubles the C library returns at 0.5. *)
Definition sin_half (x : float) : option float := Some 0.479425538604203.
Definition cos_half (x : float) : option float := Some 0.8775825618903728.

(** The store after the forward pass [overflow_build]. *)
Definition overflow_graph : heap :=
  match overflow_build [] with
  | Some (_, h) => h
  | None => []
  end.

(** The store after [x = Var(0.5); y = Var(4.2); z = x * y], nothing
    seeded. *)
Definition unseeded_graph : heap :=
  match (let* x := __init__ 0.5 in
         let* y := __init__ 4.2 in
         __mul__ x y)%M [] with
  | Some (_, h) => h
  | None => []
  end.

(** Two unrelated fresh nodes. *)
Definition two_nodes : heap := [mk 1.5 [] None; mk 2.5 [] None].

(** The store the script has built when it reaches its assertions, with
    [sin_half] and [cos_half] for the library calls. *)
Definition script_graph : heap :=
  match script_build sin_half cos_half [] with
  | Some (_, h) => h
  | None => []
  end.

(** ** Definitions for further properties of the code *)

(** [h'] keeps every node of [h], with its value, and with its children as a
    prefix of the new children. *)
Definition store_grows (h h' : heap) : Prop :=
  (length h <= length h')%nat /\
  forall n v, h !! n = Some v ->
    exists v', h' !! n = Some v' /\ value v' = value v /\
               children v `prefix_of` children v'.

(** The store after [two_nodes[0] + two_nodes[1]]. *)
Definition two_nodes_added : heap :=
  match __add__ 0%nat 1%nat two_nodes with
  | Some (_, h) => h
  | None => []
  end.

(** Node [n] is in the store [h] and has no cached gradient. *)
Definition uncached (h : heap) (n : addr) : Prop :=
  exists v, h !! n = Some v /\ grad_value v = None.

(** One step down the graph from a node without cached gradient. *)
Definition expands (h : heap) (n c : addr) : Prop :=
  uncached h n /\ child_edge h n c.

(** Between [h] and [h'], every node that got its gradient cached has all
    its consumers cached in [h']. *)
Definition explored (h h' : heap) : Prop :=
  forall x c, uncached h x -> (exists gx, cached h' x gx) ->
              child_edge h x c -> exists gc, cached h' c gc.

(** The store of the script after its first request, [x.grad()]. *)
Definition script_graph_after_x : heap :=
  match grad 3 0%nat script_graph with
  | Some (_, h) => h
  | None => []
  end.

(** [a = Var(av); b = Var(bv); z = a * b; z.grad_value = 1.0] followed by
    [a.grad()] and [b.grad()]; the result is the two gradients. *)
Definition product_grads (depth : nat) (av bv : float) : M (float * float) :=
  (let* a := __init__ av in
   let* b := __init__ bv in
   let* z := __mul__ a b in
   set_grad_value z 1.0 ;;
   let* ga := grad depth a in
   let* gb := grad depth b in
   ret (ga, gb))%M.

(** The same with [z = a + b]. *)
Definition sum_grads (depth : nat) (av bv : float) : M (float * float) :=
  (let* a := __init__ av in
   let* b := __init__ bv in
   let* z := __add__ a b in
   set_grad_value z 1.0 ;;
   let* ga := grad depth a in
   let* gb := grad depth b in
   ret (ga, gb))%M.

(** [x = Var(xv); z = sin(x); z.grad_value = 1.0] followed by [x.grad()]. *)
Definition sin_grad (math_sin math_cos : float -> option float)
    (depth : nat) (xv : float) : M float :=
  (let* x := __init__ xv in
   let* z := sin math_sin math_cos x in
   set_grad_value z 1.0 ;;
   grad depth x)%M.

(** Two unrelated nodes, the second one seeded with 1.0. *)
Definition seeded_pair : heap := [mk 1.5 [] None; mk 2.5 [] (Some 1)].

(** The multi-use scenario on an existing node [x]: [y = x * x;
    y.grad_value = 1.0] followed by [x.grad()]. *)
Definition square_grad_at (depth : nat) (x : addr) : M float :=
  (let* y := __mul__ x x in
   set_grad_value y 1.0 ;;
   grad depth x)%M.

(** Stand-ins for [math.sin] and [math.cos] with the one behaviour of
    CPython's library that matters for [sin]: at an infinite argument they
    raise ValueError (math domain error).  Elsewhere they return what
    [sin_half] and [cos_half] return. *)
Definition sin_domain (x : float) : option float :=
  if is_infinity x then None else sin_half x.
Definition cos_domain (x : float) : option float :=
  if is_infinity x then None else cos_half x.

(** * Proofs *)

(** ** Basic facts about the store operations *)

Lemma load_Some (a : addr) (h : heap) v :
  h !! a = Some v -> load a h = Some (v, h).
Proof. intros E. unfold load. now rewrite E. Qed.

Lemma get_value_Some (a : addr) (h : heap) v :
  h !! a = Some v -> get_value a h = Some (value v, h).
Proof. intros E. unfold get_value, bind. now rewrite (load_Some _ _ _ E). Qed.

Lemma bind_get_value {A} (a : addr) (h : heap) v (k : float -> M A) :
  h !! a = Some v -> (let* x := get_value a in k x)%M h = k (value v) h.
Proof. intros E. unfold bind. now rewrite (get_value_Some _ _ _ E). Qed.

Lemma store_Some (a : addr) (h : heap) v w :
  h !! a = Some v -> store a w h = Some (tt, <[a := w]> h).
Proof. intros E. unfold store. now rewrite E. Qed.

Lemma children_append_Some (a : addr) (h : heap) v e :
  h !! a = Some v ->
  children_append a e h
  = Some (tt, <[a := mk (value v) (children v ++ [e]) (grad_value v)]> h).
Proof.
  intros E. unfold children_append, bind.
  rewrite (load_Some _ _ _ E). apply (store_Some _ _ _ _ E).
Qed.

Lemma set_grad_value_Some (a : addr) (h : heap) v g :
  h !! a = Some v ->
  set_grad_value a g h
  = Some (tt, <[a := mk (value v) (children v) (Some g)]> h).
Proof.
  intros E. unfold set_grad_value, bind.
  rewrite (load_Some _ _ _ E). apply (store_Some _ _ _ _ E).
Qed.

(** Reading a node after an edge has been appended to [a]. *)
Lemma lookup_append_edge (h : heap) (a n : addr) va vn e :
  h !! a = Some va -> h !! n = Some vn ->
  <[a := mk (value va) (children va ++ [e]) (grad_value va)]> h !! n
  = Some (mk (value vn) (children vn ++ edge_for n a e) (grad_value vn)).
Proof.
  intros Ea En. unfold edge_for. destruct (decide (n = a)) as [->|Hne].
  - rewrite list_lookup_insert_eq by (eapply lookup_lt_Some; eauto).
    congruence.
  - rewrite list_lookup_insert_ne by congruence.
    rewrite app_nil_r. now destruct vn.
Qed.

Lemma lookup_fresh (h : heap) v : (h ++ [v]) !! length h = Some v.
Proof. rewrite lookup_app_r, Nat.sub_diag by lia. reflexivity. Qed.

Lemma lookup_old (h : heap) v n w : h !! n = Some w -> (h ++ [v]) !! n = Some w.
Proof. intros E. now apply lookup_app_l_Some. Qed.

(** Two appends in a row, to [self] and then to [other], on a store whose
    last object is the fresh output. *)
Lemma append_twice (h : heap) (self other : addr) a b out e1 e2 :
  h !! self = Some a -> h !! other = Some b ->
  exists h',
    (children_append self e1 ;; children_append other e2 ;;
     ret (length h))%M (h ++ [out]) = Some (length h, h') /\
    extends_with h h' out (fun n => edge_for n self e1 ++ edge_for n other e2).
Proof.
  intros Ea Eb.
  pose proof (lookup_lt_Some _ _ _ Ea) as La.
  pose proof (lookup_lt_Some _ _ _ Eb) as Lb.
  set (h1 := h ++ [out]).
  assert (E1a : h1 !! self = Some a) by now apply lookup_old.
  assert (E1b : h1 !! other = Some b) by now apply lookup_old.
  set (h2 := <[self := mk (value a) (children a ++ [e1]) (grad_value a)]> h1).
  pose proof (lookup_append_edge h1 self other a b e1 E1a E1b) as E2b.
  fold h2 in E2b.
  eexists. split.
  - unfold bind at 1. rewrite (children_append_Some _ _ _ _ E1a). fold h2.
    unfold bind at 1. rewrite (children_append_Some _ _ _ _ E2b).
    reflexivity.
  - repeat split.
    + apply lookup_ge_None. lia.
    + subst h2 h1. rewrite !length_insert, length_app. simpl. lia.
    + subst h2 h1. rewrite !list_lookup_insert_ne by lia. apply lookup_fresh.
    + intros n v En.
      assert (E1n : h1 !! n = Some v) by now apply lookup_old.
      pose proof (lookup_append_edge h1 self n a v e1 E1a E1n) as E2n.
      fold h2 in E2n.
      rewrite (lookup_append_edge h2 other n _ _ e2 E2b E2n). simpl.
      now rewrite <- app_assoc.
Qed.

(** The effect of [__add__] on a store that holds both arguments. *)
Lemma add_effect (h : heap) (self other : addr) a b :
  h !! self = Some a -> h !! other = Some b ->
  exists h',
    __add__ self other h = Some (length h, h') /\
    extends_with h h' (mk (value a + value b) [] None)
      (fun n => edge_for n self (1, length h) ++ edge_for n other (1, length h)).
Proof.
  intros Ea Eb.
  destruct (append_twice h self other a b (mk (value a + value b) [] None)
              (1, length h) (1, length h) Ea Eb) as (h' & Hrun & Hext).
  exists h'. split; [|exact Hext].
  unfold __add__.
  rewrite (bind_get_value _ _ _ _ Ea), (bind_get_value _ _ _ _ Eb).
  unfold bind at 1. unfold __init__ at 1. exact Hrun.
Qed.

(** The effect of [__mul__] on a store that holds both arguments. *)
Lemma mul_effect (h : heap) (self other : addr) a b :
  h !! self = Some a -> h !! other = Some b ->
  exists h',
    __mul__ self other h = Some (length h, h') /\
    extends_with h h' (mk (value a * value b) [] None)
      (fun n => edge_for n self (value b, length h)
                ++ edge_for n other (value a, length h)).
Proof.
  intros Ea Eb.
  set (out := mk (value a * value b) [] None).
  set (e1 := (value b, length h)). set (e2 := (value a, length h)).
  pose proof (lookup_old h out _ _ Ea) as E1a.
  pose proof (lookup_old h out _ _ Eb) as E1b.
  pose proof (lookup_append_edge _ self self a a e1 E1a E1a) as E2a.
  destruct (append_twice h self other a b out e1 e2 Ea Eb)
    as (h' & Hrun & Hext).
  exists h'. split; [|exact Hext].
  unfold __mul__.
  rewrite (bind_get_value _ _ _ _ Ea), (bind_get_value _ _ _ _ Eb).
  unfold bind at 1. unfold __init__ at 1. fold out.
  unfold bind at 1. rewrite (bind_get_value _ _ _ _ E1b).
  unfold bind at 1 in Hrun. subst e1 e2.
  rewrite (children_append_Some _ _ _ _ E1a) in Hrun |- *.
  unfold bind at 1. rewrite (bind_get_value _ _ _ _ E2a). simpl value.
  exact Hrun.
Qed.


(** The effect of [sin] on a store that holds its argument, when the two
    library calls return [s] and [c]. *)
Lemma sin_effect (math_sin math_cos : float -> option float)
    (h : heap) (x : addr) v s c :
  h !! x = Some v ->
  math_sin (value v) = Some s -> math_cos (value v) = Some c ->
  exists h',
    sin math_sin math_cos x h = Some (length h, h') /\
    extends_with h h' (mk s [] None) (fun n => edge_for n x (c, length h)).
Proof.
  intros Ex Es Ec.
  pose proof (lookup_lt_Some _ _ _ Ex) as Lx.
  set (out := mk s [] None).
  pose proof (lookup_old h out _ _ Ex) as E1x.
  eexists. split.
  - unfold sin.
    unfold bind at 1. rewrite (bind_get_value _ _ _ _ Ex), Es.
    unfold call at 1. cbv beta iota.
    unfold bind at 1. unfold __init__ at 1. fold out.
    unfold bind at 1 2. rewrite (bind_get_value _ _ _ _ E1x), Ec.
    unfold call at 1. cbv beta iota.
    rewrite (children_append_Some _ _ _ _ E1x). reflexivity.
  - repeat split.
    + apply lookup_ge_None. lia.
    + rewrite length_insert, length_app. simpl. lia.
    + rewrite list_lookup_insert_ne by lia. apply lookup_fresh.
    + intros n w En.
      apply (lookup_append_edge _ x n v w _ E1x (lookup_old h out _ _ En)).
Qed.
Lemma memo_extends_refl h : memo_extends h h.
Proof. split; [reflexivity|]. intros n v E. exists v. auto. Qed.

(** Caching total derivatives does not change total derivatives. *)
Lemma derivative_memo_back h h' :
  memo_extends h h' ->
  (forall n g, derivative h' n g -> derivative h n g) /\
  (forall l acc s, weighted_sum h' l acc s -> weighted_sum h l acc s).
Proof.
  intros [Hlen Hext].
  assert (Hback : forall n v', h' !! n = Some v' ->
            exists v, h !! n = Some v /\
              value v' = value v /\ children v' = children v /\
              (grad_value v' = grad_value v \/
               grad_value v = None /\
               exists g, grad_value v' = Some g /\ derivative h n g)).
  { intros n v' E'. pose proof (lookup_lt_Some _ _ _ E') as L.
    rewrite Hlen in L. destruct (lookup_lt_is_Some_2 _ _ L) as [v E].
    destruct (Hext n v E) as (v'' & E'' & H). exists v.
    rewrite E' in E''. injection E'' as <-. auto. }
  apply derivative_weighted_sum_ind.
  - intros n v' g E' Hg.
    destruct (Hback n v' E') as (v & E & _ & _ & [Hsame | (_ & g' & Hg' & D)]).
    + apply derivative_cached with v; congruence.
    + congruence.
  - intros n v' s E' Hnone _ IH.
    destruct (Hback n v' E') as (v & E & _ & Hch & [Hsame | (_ & g' & Hg' & _)]).
    + apply derivative_sum with v; congruence.
    + congruence.
  - constructor.
  - intros w c l acc g s _ IHd _ IHs. econstructor; eauto.
Qed.

Lemma memo_extends_trans h1 h2 h3 :
  memo_extends h1 h2 -> memo_extends h2 h3 -> memo_extends h1 h3.
Proof.
  intros H12 H23. pose proof (derivative_memo_back _ _ H12) as [Hback _].
  destruct H12 as [L12 E12], H23 as [L23 E23].
  split; [congruence|]. intros n v1 E1.
  destruct (E12 n v1 E1) as (v2 & E2 & Hv2 & Hc2 & Hg2).
  destruct (E23 n v2 E2) as (v3 & E3 & Hv3 & Hc3 & Hg3).
  exists v3. repeat split; try congruence.
  destruct Hg3 as [Hsame | (Hnone & g & Hg & D)].
  - destruct Hg2 as [Hsame' | (Hnone' & g' & Hg' & D')].
    + left. congruence.
    + right. split; [assumption|]. exists g'. split; [congruence|assumption].
  - destruct Hg2 as [Hsame' | (Hnone' & g' & Hg' & D')]; [|congruence].
    right. split; [congruence|]. exists g. auto.
Qed.


Lemma grad_unfold depth self h :
  grad (S depth) self h =
  match h !! self with
  | None => None
  | Some v =>
      match grad_value v with
      | Some g => Some (g, h)
      | None =>
          match sum_gen (grad_term depth) (children v) 0 h with
          | Some (s, h1) =>
              match set_grad_value self s h1 with
              | Some (_, h2) => Some (s, h2)
              | None => None
              end
          | None => None
          end
      end
  end.
Proof.
  simpl. unfold bind at 1. unfold load.
  destruct (h !! self) as [v|]; [|reflexivity].
  destruct (grad_value v); [reflexivity|].
  unfold bind at 1. fold (grad_term depth).
  destruct (sum_gen _ _ _ h) as [[s h1]|]; [|reflexivity].
  reflexivity.
Qed.

Lemma sum_gen_cons term e l acc h :
  sum_gen term (e :: l) acc h =
  match term e h with
  | Some (t, h') => sum_gen term l (acc + t) h'
  | None => None
  end.
Proof. reflexivity. Qed.

Lemma grad_term_unfold depth w c h :
  grad_term depth (w, c) h =
  match grad depth c h with
  | Some (g, h') => Some (w * g, h')
  | None => None
  end.
Proof. unfold grad_term, bind. destruct (grad depth c h) as [[g h']|]; reflexivity. Qed.

Section GradSound.
Variable depth : nat.
Hypothesis IH : forall n h g h',
  grad depth n h = Some (g, h') ->
  derivative h n g /\ memo_extends h h' /\ cached h' n g.

Lemma sum_gen_sound l : forall acc h s h',
  sum_gen (grad_term depth) l acc h = Some (s, h') ->
  weighted_sum h l acc s /\ memo_extends h h'.
Proof.
  induction l as [|[w c] l IHl]; intros acc h s h' Hrun.
  - injection Hrun as <- <-. split; [constructor | apply memo_extends_refl].
  - rewrite sum_gen_cons, grad_term_unfold in Hrun.
    destruct (grad depth c h) as [[g h1]|] eqn:Eg; [|discriminate].
    destruct (IH _ _ _ _ Eg) as (D & Hext & _).
    destruct (IHl _ _ _ _ Hrun) as (W & Hext').
    destruct (derivative_memo_back _ _ Hext) as [_ Wback].
    split.
    + econstructor; eauto.
    + eapply memo_extends_trans; eauto.
Qed.
End GradSound.

(** Soundness of the memoised recursion: whenever [grad] returns, it returns
    the total derivative of the node in the store it started from, it leaves
    that number cached on the node, and all it changes in the store is to
    cache total derivatives. *)
Lemma grad_sound depth : forall n h g h',
  grad depth n h = Some (g, h') ->
  derivative h n g /\ memo_extends h h' /\ cached h' n g.
Proof.
  induction depth as [|depth IH]; intros n h g h' Hrun; [discriminate|].
  rewrite grad_unfold in Hrun.
  destruct (h !! n) as [v|] eqn:En; [|discriminate].
  destruct (grad_value v) as [c|] eqn:Ec.
  - injection Hrun as <- <-. repeat split.
    + eapply derivative_cached; eauto.
    + apply memo_extends_refl.
    + exists v. auto.
  - destruct (sum_gen _ _ _ h) as [[s h1]|] eqn:Es; [|discriminate].
    destruct (sum_gen_sound depth IH _ _ _ _ _ Es) as (W & Hlen & Hext).
    destruct (Hext n v En) as (v1 & E1 & Hv1 & Hc1 & _).
    rewrite (set_grad_value_Some _ _ _ _ E1) in Hrun.
    injection Hrun as <- <-.
    assert (D : derivative h n s) by (eapply derivative_sum; eauto).
    pose proof (lookup_lt_Some _ _ _ E1) as L1.
    repeat split.
    + exact D.
    + rewrite length_insert. exact Hlen.
    + intros m vm Em. destruct (decide (m = n)) as [->|Hne].
      * rewrite list_lookup_insert_eq by assumption.
        eexists. split; [reflexivity|]. simpl.
        assert (vm = v) as -> by congruence.
        repeat split; try assumption. right. eauto.
      * rewrite list_lookup_insert_ne by congruence. apply Hext, Em.
    + eexists. rewrite list_lookup_insert_eq by assumption. eauto.
Qed.
Lemma height_le_fuel fuel h n : height fuel h n <= fuel.
Proof.
  revert n. induction fuel as [|fuel IH]; intros n; simpl; [lia|].
  destruct (h !! n) as [v|]; [|lia].
  apply le_n_S. induction (children v) as [|e l IHl]; simpl; [lia|].
  specialize (IH e.2). lia.
Qed.

Lemma memo_extends_height h h' :
  memo_extends h h' -> forall fuel n, height fuel h' n = height fuel h n.
Proof.
  intros [Hlen Hext]. induction fuel as [|fuel IH]; intros n; simpl; [reflexivity|].
  destruct (h !! n) as [v|] eqn:E.
  - destruct (Hext n v E) as (v' & -> & _ & -> & _).
    f_equal. f_equal. apply map_ext. intros e. apply IH.
  - apply lookup_ge_None in E. rewrite <- Hlen in E.
    apply lookup_ge_None in E. now rewrite E.
Qed.

Lemma memo_extends_edges_later h h' :
  memo_extends h h' -> edges_later h -> edges_later h'.
Proof.
  intros [Hlen Hext] Hl n v' w c E' Hin.
  pose proof (lookup_lt_Some _ _ _ E') as L. rewrite Hlen in L |- *.
  destruct (lookup_lt_is_Some_2 _ _ L) as [v E].
  destruct (Hext n v E) as (v'' & E'' & _ & Hch & _).
  assert (v'' = v') as -> by congruence.
  rewrite Hch in Hin. eauto.
Qed.


Lemma height_child fuel h n v w c :
  h !! n = Some v -> (w, c) ∈ children v ->
  S (height fuel h c) <= height (S fuel) h n.
Proof.
  intros E Hin. simpl. rewrite E. apply le_n_S.
  apply max_list_elem_of_le, list_elem_of_In.
  apply (in_map (fun e => height fuel h e.2) _ (w, c)).
  now apply list_elem_of_In.
Qed.

(** On a store whose edges point to later nodes, a recursion depth of
    [height fuel h n] is enough for [grad] to return, whatever is cached. *)
Lemma grad_returns_aux : forall fuel h n depth,
  edges_later h -> n < length h -> length h - n <= fuel ->
  height fuel h n <= depth ->
  exists g h', grad depth n h = Some (g, h').
Proof.
  induction fuel as [|fuel IH]; intros h n depth Hl Hn Hf Hd; [lia|].
  destruct (lookup_lt_is_Some_2 _ _ Hn) as [v En].
  destruct depth as [|depth]; [simpl in Hd; rewrite En in Hd; lia|].
  rewrite grad_unfold, En. destruct (grad_value v) as [g|]; [eauto|].
  assert (Hsum : forall l acc h0,
            memo_extends h h0 ->
            (forall w c, (w, c) ∈ l -> (w, c) ∈ children v) ->
            exists s h1, sum_gen (grad_term depth) l acc h0 = Some (s, h1)
                         /\ memo_extends h h1).
  { induction l as [|[w c] l IHl]; intros acc h0 Hext Hsub.
    - exists acc, h0. split; [reflexivity|assumption].
    - assert (Hin : (w, c) ∈ children v) by (apply Hsub; left).
      destruct (Hl n v w c En Hin) as [Hnc Hc].
      pose proof (height_child fuel h n v w c En Hin) as Hh.
      destruct (IH h0 c depth) as (g & h0' & Eg).
      + eapply memo_extends_edges_later; eauto.
      + destruct Hext as [-> _]. exact Hc.
      + destruct Hext as [-> _]. lia.
      + rewrite (memo_extends_height _ _ Hext). lia.
      + destruct (grad_sound _ _ _ _ _ Eg) as (_ & Hext' & _).
        destruct (IHl (acc + w * g) h0') as (s & h1 & Es & Hext1).
        * eapply memo_extends_trans; eauto.
        * intros w' c' Hin'. apply Hsub. now right.
        * exists s, h1. split; [|assumption].
          rewrite sum_gen_cons, grad_term_unfold, Eg. exact Es. }
  destruct (Hsum (children v) 0 h (memo_extends_refl h) (fun _ _ H => H))
    as (s & h1 & -> & _ & Hext).
  destruct (Hext n v En) as (v1 & E1 & _).
  rewrite (set_grad_value_Some _ _ _ _ E1). eauto.
Qed.

(** Termination: the depth of the graph below [n] is enough, and so is any
    greater depth. *)
Lemma grad_returns h n depth :
  edges_later h -> n < length h -> graph_depth h n <= depth ->
  exists g h', grad depth n h = Some (g, h').
Proof. intros Hl Hn Hd. now apply (grad_returns_aux (length h - n)). Qed.

Lemma graph_depth_le h n : graph_depth h n <= length h - n.
Proof. apply height_le_fuel. Qed.
Lemma init_effect (value : float) (h : heap) :
  __init__ value h = Some (length h, h ++ [mk value [] None]) /\
  extends_with h (h ++ [mk value [] None]) (mk value [] None) (fun _ => []).
Proof.
  split; [reflexivity|]. repeat split.
  - apply lookup_ge_None. lia.
  - rewrite length_app. simpl. lia.
  - apply lookup_fresh.
  - intros n v E. rewrite app_nil_r. destruct v. now apply lookup_old.
Qed.

Lemma add_inv self other h z h' :
  __add__ self other h = Some (z, h') ->
  exists a b, h !! self = Some a /\ h !! other = Some b.
Proof.
  unfold __add__, bind at 1, get_value, bind at 1, load.
  destruct (h !! self) as [a|]; [|discriminate].
  unfold bind at 1, bind at 1, ret at 1.
  destruct (h !! other) as [b|]; [eauto|discriminate].
Qed.

Lemma mul_inv self other h z h' :
  __mul__ self other h = Some (z, h') ->
  exists a b, h !! self = Some a /\ h !! other = Some b.
Proof.
  unfold __mul__, bind at 1, get_value, bind at 1, load.
  destruct (h !! self) as [a|]; [|discriminate].
  unfold bind at 1, bind at 1, ret at 1.
  destruct (h !! other) as [b|]; [eauto|discriminate].
Qed.

Lemma sin_inv math_sin math_cos x h z h' :
  sin math_sin math_cos x h = Some (z, h') ->
  exists v s c, h !! x = Some v /\
    math_sin (value v) = Some s /\ math_cos (value v) = Some c.
Proof.
  intros Hrun. destruct (h !! x) as [v|] eqn:Ex.
  - exists v. unfold sin in Hrun.
    unfold bind at 1 in Hrun. rewrite (bind_get_value _ _ _ _ Ex) in Hrun.
    destruct (math_sin (value v)) as [s|]; [|discriminate].
    unfold call at 1 in Hrun. cbv beta iota in Hrun.
    unfold bind at 1, __init__ at 1, bind at 1, bind at 1 in Hrun.
    rewrite (bind_get_value _ _ _ _ (lookup_old h _ _ _ Ex)) in Hrun.
    destruct (math_cos (value v)) as [c|]; [eauto|discriminate].
  - unfold sin, bind at 1, bind at 1, get_value, bind at 1, load in Hrun.
    now rewrite Ex in Hrun.
Qed.

Section ReachableShape.
Variables math_sin math_cos : float -> option float.

Local Abbreviation forward_op := (forward_op math_sin math_cos).
Local Abbreviation forward_built := (forward_built math_sin math_cos).
Local Abbreviation reachable := (reachable math_sin math_cos).

Lemma forward_built_reachable h : forward_built h -> reachable h.
Proof. apply rtc_subrel. auto. Qed.

(** Every forward operation adds one node without children or gradient,
    and appends to old nodes only edges that point to it. *)
Lemma forward_op_shape h h' :
  forward_op h h' ->
  exists out edges, extends_with h h' out edges /\
    children out = [] /\ grad_value out = None /\
    forall n e, e ∈ edges n -> e.2 = length h.
Proof.
  assert (Hedge : forall n a (e e' : float * addr),
            e' ∈ edge_for n a e -> e' = e).
  { intros n a e e'. unfold edge_for. destruct (decide (n = a)).
    - now intros ->%list_elem_of_singleton.
    - now intros ?%elem_of_nil. }
  intros [value h0 z h0' Hrun | self other h0 z h0' Hrun
         | self other h0 z h0' Hrun | x h0 z h0' Hrun].
  - destruct (init_effect value h0) as [E Hext]. rewrite E in Hrun.
    injection Hrun as <- <-. do 2 eexists. split; [exact Hext|].
    repeat split. now intros n e ?%elem_of_nil.
  - destruct (add_inv _ _ _ _ _ Hrun) as (a & b & Ea & Eb).
    destruct (add_effect h0 self other a b Ea Eb) as (h2 & E & Hext).
    rewrite E in Hrun. injection Hrun as <- <-.
    do 2 eexists. split; [exact Hext|]. repeat split.
    intros n e [->%Hedge | ->%Hedge]%elem_of_app; reflexivity.
  - destruct (mul_inv _ _ _ _ _ Hrun) as (a & b & Ea & Eb).
    destruct (mul_effect h0 self other a b Ea Eb) as (h2 & E & Hext).
    rewrite E in Hrun. injection Hrun as <- <-.
    do 2 eexists. split; [exact Hext|]. repeat split.
    intros n e [->%Hedge | ->%Hedge]%elem_of_app; reflexivity.
  - destruct (sin_inv _ _ _ _ _ _ Hrun) as (v & s & c & Ex & Es & Ec).
    destruct (sin_effect math_sin math_cos h0 x v s c Ex Es Ec)
      as (h2 & E & Hext).
    rewrite E in Hrun. injection Hrun as <- <-.
    do 2 eexists. split; [exact Hext|]. repeat split.
    intros n e ->%Hedge. reflexivity.
Qed.

End ReachableShape.



Lemma set_grad_value_inv z g h u h' :
  set_grad_value z g h = Some (u, h') ->
  exists v, h !! z = Some v /\
    h' = <[z := mk (value v) (children v) (Some g)]> h.
Proof.
  intros Hrun. destruct (h !! z) as [v|] eqn:E.
  - rewrite (set_grad_value_Some _ _ _ _ E) in Hrun.
    injection Hrun as _ <-. eauto.
  - unfold set_grad_value, bind, load in Hrun. now rewrite E in Hrun.
Qed.

Lemma extends_with_edges_later h h' out edges :
  extends_with h h' out edges -> children out = [] ->
  (forall n e, e ∈ edges n -> e.2 = length h) ->
  edges_later h -> edges_later h'.
Proof.
  intros (_ & Hlen & Hout & Hold) Hleaf Hnew Hl n v' w c E' Hin.
  pose proof (lookup_lt_Some _ _ _ E') as L. rewrite Hlen in L |- *.
  destruct (decide (n = length h)) as [->|Hne].
  - rewrite Hout in E'. injection E' as <-.
    rewrite Hleaf in Hin. now apply elem_of_nil in Hin.
  - assert (Hn : n < length h) by lia.
    destruct (lookup_lt_is_Some_2 _ _ Hn) as [v E].
    rewrite (Hold n v E) in E'. injection E' as <-. simpl in Hin.
    apply elem_of_app in Hin as [Hin | Hin].
    + destruct (Hl n v w c E Hin). lia.
    + apply Hnew in Hin. simpl in Hin. lia.
Qed.

Lemma seed_edges_later z g h u h' :
  set_grad_value z g h = Some (u, h') -> edges_later h -> edges_later h'.
Proof.
  intros (vz & Ez & ->)%set_grad_value_inv Hl n v' w c E' Hin.
  rewrite length_insert. destruct (decide (n = z)) as [->|Hne].
  - rewrite list_lookup_insert_eq in E' by (eapply lookup_lt_Some; eauto).
    injection E' as <-. simpl in Hin. eauto.
  - rewrite list_lookup_insert_ne in E' by congruence. eauto.
Qed.

Section ReachableFacts.
Variables math_sin math_cos : float -> option float.

Lemma reachable_edges_later h :
  reachable math_sin math_cos h -> edges_later h.
Proof.
  intros Hr.
  eapply (rtc_ind_r (fun h => edges_later h) []); [| |exact Hr]; clear h Hr.
  - intros n v w c E. now rewrite lookup_nil in E.
  - intros h h' Hr [Hop | Hop] IH; [|clear Hr; revert IH].
    destruct (forward_op_shape _ _ _ _ Hop)
      as (out & edges & Hext & Hleaf & _ & Hnew).
    + eapply extends_with_edges_later; eauto.
    + destruct Hop as [z h h' Hrun | depth n h g h' Hrun]; intros IH.
      * eapply seed_edges_later; eauto.
      * destruct (grad_sound _ _ _ _ _ Hrun) as (_ & Hext & _).
        eapply memo_extends_edges_later; eauto.
Qed.

(** The forward operations cache no gradient. *)
Lemma forward_built_uncached h :
  forward_built math_sin math_cos h ->
  forall n v, h !! n = Some v -> grad_value v = None.
Proof.
  intros Hf.
  eapply (rtc_ind_r (fun h => forall n v, h !! n = Some v ->
                                grad_value v = None) []);
    [| |exact Hf]; clear h Hf.
  - intros n v E. now rewrite lookup_nil in E.
  - intros h h' _ Hop IH.
    destruct (forward_op_shape _ _ _ _ Hop)
      as (out & edges & (_ & Hlen & Hout & Hold) & _ & Hnone & _).
    intros n v' E'. pose proof (lookup_lt_Some _ _ _ E') as L.
    rewrite Hlen in L. destruct (decide (n = length h)) as [->|Hne].
    + congruence.
    + assert (Hn : n < length h) by lia.
      destruct (lookup_lt_is_Some_2 _ _ Hn) as [v E].
      rewrite (Hold n v E) in E'. injection E' as <-. simpl. eauto.
Qed.

End ReachableFacts.


(** ** IEEE-754 facts, from the specification of the binary64 operations *)

Lemma Prim2SF_zero : Prim2SF 0 = S754_zero false.
Proof. reflexivity. Qed.
Lemma Prim2SF_one : Prim2SF 1 = S754_finite false 4503599627370496 (-52).
Proof. reflexivity. Qed.
Lemma Prim2SF_two : Prim2SF 2 = S754_finite false 4503599627370496 (-51).
Proof. reflexivity. Qed.
Lemma Prim2SF_infinity : Prim2SF infinity = S754_infinity false.
Proof. reflexivity. Qed.

Lemma SFcompare_refl x : x <> S754_nan -> SFcompare x x = Some Eq.
Proof.
  destruct x as [s|s| |s m e]; try (destruct s; reflexivity); [congruence|].
  intros _. simpl. rewrite Z.compare_refl, Pos.compare_cont_refl.
  destruct s; reflexivity.
Qed.

Lemma is_finite_SF x :
  is_finite x = true <->
  match Prim2SF x with
  | S754_zero _ | S754_finite _ _ _ => True
  | _ => False
  end.
Proof.
  unfold is_finite, is_nan, is_infinity.
  rewrite !FloatAxioms.eqb_spec, FloatAxioms.abs_spec, Prim2SF_infinity. unfold SFeqb.
  destruct (Prim2SF x) as [s|s| |s m e] eqn:E.
  - destruct s; simpl; tauto.
  - destruct s; simpl; intuition discriminate.
  - simpl; intuition discriminate.
  - rewrite SFcompare_refl by discriminate. simpl. tauto.
Qed.

(** Adding [w * 0] to [+0] leaves [+0], for finite [w]. *)
Lemma float_add_zero_mul_zero w : is_finite w = true -> 0 + w * 0 = 0.
Proof.
  intros Hw%is_finite_SF. apply Prim2SF_inj.
  rewrite FloatAxioms.add_spec, FloatAxioms.mul_spec, Prim2SF_zero.
  destruct (Prim2SF w) as [s|s| |s m e]; try contradiction;
    destruct s; reflexivity.
Qed.

Lemma bounded_cases m e :
  bounded prec emax m e = true ->
  (e <= 971)%Z /\
  ((Zpos (digits2_pos m) = 53 /\ -1074 <= e)%Z \/
   (Zpos (digits2_pos m) < 53 /\ e = -1074)%Z).
Proof.
  unfold bounded, canonical_mantissa, fexp, emin, prec, emax.
  intros [H1 H2]%andb_prop. apply Z.eqb_eq in H1. apply Z.leb_le in H2.
  lia.
Qed.

Lemma fexp_eq z : fexp prec emax z = Z.max (z - 53) (-1074).
Proof. reflexivity. Qed.

Lemma digits2_xO m :
  Zpos (digits2_pos m~0) = (Zpos (digits2_pos m) + 1)%Z.
Proof. simpl. apply Pos2Z.inj_succ. Qed.

(** Rounding [m * 2^52] at exponent [e - 52] gives back [m] at [e]. *)
Lemma round_shift52 s m e :
  bounded prec emax m e = true ->
  binary_round_aux prec emax s
    (Zpos (m~0~0~0~0~0~0~0~0~0~0~0~0~0~0~0~0~0~0~0~0~0~0~0~0~0~0
            ~0~0~0~0~0~0~0~0~0~0~0~0~0~0~0~0~0~0~0~0~0~0~0~0~0~0))
    (e + -52) loc_Exact
  = S754_finite s m e.
Proof.
  intros Hb. destruct (bounded_cases m e Hb) as [He Hd].
  unfold binary_round_aux, shr_fexp at 1. 
  cbn [Zdigits2 shr_record_of_loc].
  rewrite !digits2_xO, fexp_eq.
  match goal with |- context [Z.max ?a ?b] =>
    replace (Z.max a b) with e by lia end.
  replace (e - (e + -52))%Z with 52%Z by lia.
  cbn [shr SpecFloat.iter_pos shr_1 shr_m loc_of_shr_record round_nearest_even orb].
  replace (e + -52 + 52)%Z with e by lia.
  unfold shr_fexp. cbn [Zdigits2 shr_record_of_loc]. rewrite fexp_eq.
  match goal with |- context [Z.max ?a ?b] =>
    replace (Z.max a b) with e by lia end.
  rewrite Z.sub_diag. cbn [shr shr_m].
  unfold emax, prec. replace (e <=? 1024 - 53)%Z with true; [reflexivity|].
  symmetry. apply Z.leb_le. lia.
Qed.

Lemma xO52_mul m :
  (4503599627370496 * m)%positive
  = (m~0~0~0~0~0~0~0~0~0~0~0~0~0~0~0~0~0~0~0~0~0~0~0~0~0~0
      ~0~0~0~0~0~0~0~0~0~0~0~0~0~0~0~0~0~0~0~0~0~0~0~0~0~0)%positive.
Proof. reflexivity. Qed.

(** [x * 1.0] is [x], for every float. *)
Lemma float_mul_one_r x : x * 1 = x.
Proof.
  apply Prim2SF_inj. rewrite FloatAxioms.mul_spec, Prim2SF_one.
  pose proof (Prim2SF_valid x) as Hv.
  destruct (Prim2SF x) as [s|s| |s m e];
    [destruct s; reflexivity | destruct s; reflexivity | reflexivity |].
  unfold SF64mul, SFmul. rewrite xorb_false_r.
  change (PosDef.Pos.mul m 4503599627370496) with (m * 4503599627370496)%positive.
  rewrite Pos.mul_comm, xO52_mul. apply round_shift52, Hv.
Qed.

(** [+0.0 + x] is [x] unless [x] is [-0.0]. *)
Lemma float_add_zero_l x :
  Prim2SF x <> S754_zero true -> 0 + x = x.
Proof.
  intros Hx. apply Prim2SF_inj. rewrite FloatAxioms.add_spec, Prim2SF_zero.
  destruct (Prim2SF x) as [s|s| |s m e]; try reflexivity.
  destruct s; [congruence|reflexivity].
Qed.

(** Rounding [m * 2^52] at exponent [e - 51] and rounding [2 * m] at
    exponent [e] give the same float. *)
Lemma round_double s m e :
  bounded prec emax m e = true ->
  binary_round_aux prec emax s
    (Zpos (m~0~0~0~0~0~0~0~0~0~0~0~0~0~0~0~0~0~0~0~0~0~0~0~0~0~0
            ~0~0~0~0~0~0~0~0~0~0~0~0~0~0~0~0~0~0~0~0~0~0~0~0~0~0))
    (-51 + e) loc_Exact
  = binary_round_aux prec emax s (Zpos m~0) e loc_Exact.
Proof.
  intros Hb. destruct (bounded_cases m e Hb) as [He [[Hd Hlo] | [Hd ->]]].
  - (* normal: both round to [m] at [e + 1] *)
    unfold binary_round_aux, shr_fexp at 1 3.
    cbn [Zdigits2 shr_record_of_loc].
    rewrite !digits2_xO, !fexp_eq.
    replace (Z.max _ (-1074) - (-51 + e))%Z with 52%Z by lia.
    replace (Z.max _ (-1074) - e)%Z with 1%Z by lia.
    cbn [shr SpecFloat.iter_pos shr_1 shr_m loc_of_shr_record round_nearest_even orb].
    replace (-51 + e + 52)%Z with (e + 1)%Z by lia.
    reflexivity.
  - (* subnormal: both round to [2 * m] at [e] *)
    unfold binary_round_aux, shr_fexp at 1 3.
    cbn [Zdigits2 shr_record_of_loc].
    rewrite !digits2_xO, !fexp_eq.
    replace (Z.max _ (-1074) - (-51 + -1074))%Z with 51%Z by lia.
    replace (Z.max _ (-1074) - -1074)%Z with 0%Z by lia.
    cbn [shr SpecFloat.iter_pos shr_1 shr_m loc_of_shr_record round_nearest_even orb].
    reflexivity.
Qed.

Lemma shl_align_same m e : shl_align m e e = (m, e).
Proof. unfold shl_align. now rewrite Z.sub_diag. Qed.

Lemma binary_round_double s m e :
  bounded prec emax m e = true ->
  binary_round prec emax s (m~0) e
  = binary_round_aux prec emax s (Zpos m~0) e loc_Exact.
Proof.
  intros Hb. destruct (bounded_cases m e Hb) as [He Hd].
  unfold binary_round, shl_align. rewrite digits2_xO, fexp_eq.
  destruct (Z.max _ _ - e)%Z as [|p|p] eqn:E; try reflexivity. lia.
Qed.

(** [x + x] and [2.0 * x] are the same float. *)
Lemma float_add_diag x : x + x = 2 * x.
Proof.
  apply Prim2SF_inj. rewrite FloatAxioms.add_spec, FloatAxioms.mul_spec, Prim2SF_two.
  pose proof (Prim2SF_valid x) as Hv.
  destruct (Prim2SF x) as [s|s| |s m e];
    [destruct s; reflexivity | destruct s; reflexivity | reflexivity |].
  unfold SF64mul, SFmul. rewrite xorb_false_l.
  change (PosDef.Pos.mul 4503599627370496 m) with (4503599627370496 * m)%positive.
  rewrite xO52_mul, (round_double _ _ _ Hv).
  unfold SF64add, SFadd. rewrite Z.min_id, shl_align_same. cbn [fst].
  rewrite <- (binary_round_double _ _ _ Hv).
  destruct s; cbn [cond_Zopp].
  - now replace (- Z.pos m + - Z.pos m)%Z with (Z.neg m~0) by lia.
  - now replace (Z.pos m + Z.pos m)%Z with (Z.pos m~0) by lia.
Qed.

(** [x - x] is [+0.0] for finite [x]. *)
Lemma float_sub_diag x : is_finite x = true -> x - x = 0.
Proof.
  intros Hx%is_finite_SF. apply Prim2SF_inj. rewrite FloatAxioms.sub_spec, Prim2SF_zero.
  destruct (Prim2SF x) as [s|s| |s m e]; try contradiction.
  - destruct s; reflexivity.
  - unfold SF64sub, SFsub. rewrite Z.min_id, shl_align_same. cbn [fst].
    now rewrite Z.sub_diag.
Qed.

(** ** The total derivative is a function of the store *)

Lemma derivative_deterministic h :
  (forall n g, derivative h n g -> forall g', derivative h n g' -> g = g') /\
  (forall l acc s, weighted_sum h l acc s ->
     forall s', weighted_sum h l acc s' -> s = s').
Proof.
  apply derivative_weighted_sum_ind.
  - intros n v g E Hg g' D'. inversion D'; congruence.
  - intros n v s E Hnone _ IH g' D'. inversion D' as [? v' ? E' Hg'|? v' ? E' _ W'].
    + congruence.
    + apply IH. congruence.
  - intros acc s' W'. now inversion W'.
  - intros w c l acc g s _ IHd _ IHs s' W'.
    inversion W' as [|? ? ? ? g2 ? D2 W2]; subst.
    rewrite (IHd _ D2) in IHs. now apply IHs.
Qed.

(** The weighted sum, spelled as a fold over the consumers' derivatives. *)
Lemma weighted_sum_fold h l : forall acc s,
  weighted_sum h l acc s <->
  exists gs, Forall2 (fun e gc => derivative h e.2 gc) l gs /\
             s = fold_left PrimFloat.add (zip_with (fun e gc => e.1 * gc) l gs) acc.
Proof.
  induction l as [|[w c] l IH]; intros acc s; split.
  - intros W. inversion W; subst. exists []. split; [constructor|reflexivity].
  - intros (gs & F & ->). inversion F; subst. constructor.
  - intros W. inversion W as [|? ? ? ? g ? D W']; subst.
    apply IH in W' as (gs & F & ->). exists (g :: gs).
    split; [now constructor|reflexivity].
  - intros (gs & F & ->). inversion F as [|? gc ? gs' D F']; subst.
    econstructor; [exact D|]. apply IH. eauto.
Qed.

(** On a store whose edges point to later nodes, the total derivative of a
    node is what [grad] returns for it. *)
Lemma derivative_is_grad h n g depth :
  edges_later h -> graph_depth h n <= depth ->
  derivative h n g -> exists h', grad depth n h = Some (g, h').
Proof.
  intros Hl Hd D.
  assert (Hn : n < length h).
  { inversion D; eapply lookup_lt_Some; eauto. }
  destruct (grad_returns h n depth Hl Hn Hd) as (g' & h' & Hrun).
  destruct (grad_sound _ _ _ _ _ Hrun) as (D' & _).
  destruct (derivative_deterministic h) as [Hdet _].
  rewrite (Hdet _ _ D _ D'). eauto.
Qed.

(** More fuel than there are nodes left does not change the height. *)
Lemma height_stable h :
  edges_later h ->
  forall fuel fuel' n,
    (length h - n <= fuel)%nat -> (length h - n <= fuel')%nat ->
    height fuel h n = height fuel' h n.
Proof.
  intros Hl. induction fuel as [|fuel IH]; intros fuel' n Hf Hf'.
  - assert (Hn : (length h <= n)%nat) by lia. apply lookup_ge_None in Hn.
    destruct fuel'; simpl; [reflexivity|]. now rewrite Hn.
  - destruct fuel' as [|fuel'].
    + assert (Hn : (length h <= n)%nat) by lia. apply lookup_ge_None in Hn.
      simpl. now rewrite Hn.
    + simpl. destruct (h !! n) as [v|] eqn:E; [|reflexivity].
      f_equal. f_equal. apply map_ext_in. intros [w c] Hin%list_elem_of_In.
      destruct (Hl n v w c E Hin). apply IH; simpl; lia.
Qed.

Lemma graph_depth_child h n v w c :
  edges_later h -> h !! n = Some v -> (w, c) ∈ children v ->
  (S (graph_depth h c) <= graph_depth h n)%nat.
Proof.
  intros Hl E Hin. destruct (Hl n v w c E Hin) as [Hnc Hc].
  unfold graph_depth.
  replace (length h - n)%nat with (S (length h - S n)) by lia.
  rewrite (height_stable h Hl (length h - c) (length h - S n) c) by lia.
  eapply height_child; eauto.
Qed.

(** The consumers' total derivatives are what [grad] returns for the
    consumers, at the recursion depth that is enough for the node itself. *)
Lemma children_grads h n v depth l gs :
  edges_later h -> h !! n = Some v -> (graph_depth h n <= depth)%nat ->
  (forall e, e ∈ l -> e ∈ children v) ->
  Forall2 (fun e gc => derivative h e.2 gc) l gs ->
  Forall2 (fun e gc => exists hc, grad depth e.2 h = Some (gc, hc)) l gs.
Proof.
  intros Hl En Hd Hsub F. induction F as [|[w c] gc l gs Dc F IH].
  - constructor.
  - constructor.
    + apply (derivative_is_grad h c gc depth Hl); [|exact Dc].
      assert (Hin : (w, c) ∈ children v) by (apply Hsub; left).
      pose proof (graph_depth_child h n v w c Hl En Hin). simpl. lia.
    + apply IH. intros e He. apply Hsub. now right.
Qed.

(** ** The claims *)

Lemma script_graph_reachable : reachable sin_half cos_half script_graph.
Proof.
  unfold reachable.
  eapply rtc_l; [left; eapply (op_init _ _ 0.5); reflexivity|].
  eapply rtc_l; [left; eapply (op_init _ _ 4.2); reflexivity|].
  eapply rtc_l; [left; eapply (op_mul _ _ 0 1); reflexivity|].
  eapply rtc_l; [left; eapply (op_sin _ _ 0); reflexivity|].
  eapply rtc_l; [left; eapply (op_add _ _ 2 3); reflexivity|].
  eapply rtc_l; [right; eapply (op_seed 4); reflexivity|].
  apply rtc_refl.
Qed.

(** C1. On every store the program can reach and for every node [n] of it,
    [grad(n)] returns (any recursion depth from the depth of the graph below
    [n] on is enough).  If [n] has a cached gradient, that is the result and
    the store is unchanged.  Otherwise the result is the sum, accumulated
    from 0 in list order, of [weight * gc] over the children [(weight,
    consumer)] of [n], where [gc] is what [grad(consumer)] returns; the
    result is stored as the cached gradient of [n], value and children
    untouched; with no children the result is 0.  All that the call changes
    in the store is to cache total derivatives ([memo_extends]). *)
Theorem grad_cached_or_sum (math_sin math_cos : float -> option float)
    (h : heap) (n : addr) (v : Var.t) (depth : nat) :
  reachable math_sin math_cos h -> h !! n = Some v ->
  (graph_depth h n <= depth)%nat ->
  exists g h', grad depth n h = Some (g, h') /\
    memo_extends h h' /\
    match grad_value v with
    | Some c => g = c /\ h' = h
    | None =>
        (exists gs,
           Forall2 (fun e gc => exists hc, grad depth e.2 h = Some (gc, hc))
                   (children v) gs /\
           g = fold_left PrimFloat.add
                 (zip_with (fun e gc => e.1 * gc) (children v) gs) 0) /\
        h' !! n = Some (mk (value v) (children v) (Some g)) /\
        (children v = [] -> g = 0)
    end.
Proof.
  intros Hr En Hd. pose proof (reachable_edges_later _ _ _ Hr) as Hl.
  pose proof (lookup_lt_Some _ _ _ En) as Hn.
  destruct (grad_returns h n depth Hl Hn Hd) as (g & h' & Hrun).
  exists g, h'. split; [exact Hrun|].
  destruct (grad_sound _ _ _ _ _ Hrun) as (D & Hmemo & (v' & E' & Hg')).
  split; [exact Hmemo|]. destruct Hmemo as [_ Hext].
  destruct (grad_value v) as [c|] eqn:Ec.
  - destruct depth as [|depth]; [discriminate|].
    rewrite grad_unfold, En, Ec in Hrun. now injection Hrun as <- <-.
  - inversion D as [? v0 ? E0 Hc0|? v0 ? E0 _ W]; subst; [congruence|].
    assert (v0 = v) as -> by congruence.
    repeat split.
    + apply weighted_sum_fold in W as (gs & F & ->). exists gs.
      split; [|reflexivity].
      eapply children_grads; eauto.
    + destruct (Hext n v En) as (v'' & E'' & Hv & Hc & _).
      assert (v'' = v') as -> by congruence.
      rewrite E'. f_equal. destruct v'. simpl in *. congruence.
    + intros Hnil. rewrite Hnil in W. now inversion W.
Qed.

Lemma grad_cached_or_sum_witness :
  exists g h', grad 3 0%nat script_graph = Some (g, h') /\
    memo_extends script_graph h' /\
    (exists gs,
       Forall2 (fun e gc => exists hc, grad 3 e.2 script_graph = Some (gc, hc))
               [(4.2, 2%nat); (0.8775825618903728, 3%nat)] gs /\
       g = fold_left PrimFloat.add
             (zip_with (fun e gc => e.1 * gc)
                       [(4.2, 2%nat); (0.8775825618903728, 3%nat)] gs) 0) /\
    h' !! 0%nat = Some (mk 0.5 [(4.2, 2%nat); (0.8775825618903728, 3%nat)] (Some g)) /\
    ([(4.2, 2%nat); (0.8775825618903728, 3%nat)] = @nil (float * addr) -> g = 0).
Proof.
  apply (grad_cached_or_sum sin_half cos_half script_graph 0%nat
           (mk 0.5 [(4.2, 2%nat); (0.8775825618903728, 3%nat)] None) 3).
  - exact script_graph_reachable.
  - reflexivity.
  - vm_compute. lia.
Defined.

Lemma edge_for_same n e : edge_for n n e = [e].
Proof. unfold edge_for. now rewrite decide_True. Qed.

Lemma edge_for_other n a e : n <> a -> edge_for n a e = [].
Proof. intros Hne. unfold edge_for. now rewrite decide_False. Qed.

Lemma unchanged_node (v : Var.t) :
  mk (value v) (children v ++ []) (grad_value v) = v.
Proof. rewrite app_nil_r. now destruct v. Qed.

(** What [extends_with] says about the two arguments of a binary operation
    and about the nodes that are neither. *)
Lemma two_edges_explicit h h' out self other a b e1 e2 :
  extends_with h h' out (fun n => edge_for n self e1 ++ edge_for n other e2) ->
  h !! self = Some a -> h !! other = Some b ->
  (self <> other ->
     h' !! self = Some (mk (value a) (children a ++ [e1]) (grad_value a)) /\
     h' !! other = Some (mk (value b) (children b ++ [e2]) (grad_value b))) /\
  (self = other ->
     h' !! self = Some (mk (value a) (children a ++ [e1; e2]) (grad_value a))) /\
  (forall n v, n <> self -> n <> other -> h !! n = Some v -> h' !! n = Some v).
Proof.
  intros (_ & _ & _ & Hold) Ea Eb. repeat split.
  - rewrite (Hold _ _ Ea), edge_for_same, edge_for_other, app_nil_r; auto.
  - rewrite (Hold _ _ Eb), edge_for_same, edge_for_other; auto.
  - intros <-. now rewrite (Hold _ _ Ea), !edge_for_same.
  - intros n v Hs Ho E.
    rewrite (Hold _ _ E), !edge_for_other by assumption.
    apply f_equal, unchanged_node.
Qed.

(** C7. For every two nodes [self] and [other] of a store (they may be the
    same node), [add(self, other)], the method [__add__], returns a node
    that was not in the store; the new store has that one node more, whose
    value is the IEEE-754 sum [self.value + other.value] and which has no
    children and no gradient; the edge [(1.0, output)] is appended once to
    the children of [self] and once to those of [other] (so twice to the one
    list when both arguments are the same node); values, gradients and the
    children of all other nodes are unchanged. *)
Theorem add_records_unit_edges (h : heap) (self other : addr) (a b : Var.t) :
  h !! self = Some a -> h !! other = Some b ->
  exists h',
    __add__ self other h = Some (length h, h') /\
    h !! length h = None /\ length h' = S (length h) /\
    h' !! length h = Some (mk (value a + value b) [] None) /\
    (self <> other ->
       h' !! self
       = Some (mk (value a) (children a ++ [(1.0, length h)]) (grad_value a)) /\
       h' !! other
       = Some (mk (value b) (children b ++ [(1.0, length h)]) (grad_value b))) /\
    (self = other ->
       h' !! self
       = Some (mk (value a) (children a ++ [(1.0, length h); (1.0, length h)])
                  (grad_value a))) /\
    (forall n v, n <> self -> n <> other -> h !! n = Some v -> h' !! n = Some v).
Proof.
  intros Ea Eb. destruct (add_effect h self other a b Ea Eb) as (h' & Hrun & Hext).
  pose proof (two_edges_explicit _ _ _ _ _ _ _ _ _ Hext Ea Eb) as Hexp.
  destruct Hext as (Hfresh & Hlen & Hout & _).
  exists h'. tauto.
Qed.

Lemma add_records_unit_edges_witness :
  exists h',
    __add__ 0%nat 1%nat two_nodes = Some (2%nat, h') /\
    two_nodes !! 2%nat = None /\ length h' = 3%nat /\
    h' !! 2%nat = Some (mk (1.5 + 2.5) [] None) /\
    (0%nat <> 1%nat ->
       h' !! 0%nat = Some (mk 1.5 ([] ++ [(1.0, 2%nat)]) None) /\
       h' !! 1%nat = Some (mk 2.5 ([] ++ [(1.0, 2%nat)]) None)) /\
    (0%nat = 1%nat ->
       h' !! 0%nat = Some (mk 1.5 ([] ++ [(1.0, 2%nat); (1.0, 2%nat)]) None)) /\
    (forall n v, n <> 0%nat -> n <> 1%nat ->
       two_nodes !! n = Some v -> h' !! n = Some v).
Proof.
  apply (add_records_unit_edges two_nodes 0%nat 1%nat
           (mk 1.5 [] None) (mk 2.5 [] None)); reflexivity.
Defined.

(** C2. For every two nodes [self] and [other] of a store (they may be the
    same node), [multiply(self, other)], the method [__mul__], returns a node
    that was not in the store; the new store has that one node more, whose
    value is the IEEE-754 product [self.value * other.value] and which has no
    children and no gradient; the edge [(other.value, output)] is appended to
    the children of [self] and the edge [(self.value, output)] to those of
    [other] (both to the one list, in that order, when both arguments are the
    same node); values, gradients and the children of all other nodes are
    unchanged. *)
Theorem mul_records_cross_values (h : heap) (self other : addr) (a b : Var.t) :
  h !! self = Some a -> h !! other = Some b ->
  exists h',
    __mul__ self other h = Some (length h, h') /\
    h !! length h = None /\ length h' = S (length h) /\
    h' !! length h = Some (mk (value a * value b) [] None) /\
    (self <> other ->
       h' !! self
       = Some (mk (value a) (children a ++ [(value b, length h)])
                  (grad_value a)) /\
       h' !! other
       = Some (mk (value b) (children b ++ [(value a, length h)])
                  (grad_value b))) /\
    (self = other ->
       h' !! self
       = Some (mk (value a)
                  (children a ++ [(value b, length h); (value a, length h)])
                  (grad_value a))) /\
    (forall n v, n <> self -> n <> other -> h !! n = Some v -> h' !! n = Some v).
Proof.
  intros Ea Eb. destruct (mul_effect h self other a b Ea Eb) as (h' & Hrun & Hext).
  pose proof (two_edges_explicit _ _ _ _ _ _ _ _ _ Hext Ea Eb) as Hexp.
  destruct Hext as (Hfresh & Hlen & Hout & _).
  exists h'. tauto.
Qed.

Lemma mul_records_cross_values_witness :
  exists h',
    __mul__ 0%nat 1%nat two_nodes = Some (2%nat, h') /\
    two_nodes !! 2%nat = None /\ length h' = 3%nat /\
    h' !! 2%nat = Some (mk (1.5 * 2.5) [] None) /\
    (0%nat <> 1%nat ->
       h' !! 0%nat = Some (mk 1.5 ([] ++ [(2.5, 2%nat)]) None) /\
       h' !! 1%nat = Some (mk 2.5 ([] ++ [(1.5, 2%nat)]) None)) /\
    (0%nat = 1%nat ->
       h' !! 0%nat = Some (mk 1.5 ([] ++ [(2.5, 2%nat); (1.5, 2%nat)]) None)) /\
    (forall n v, n <> 0%nat -> n <> 1%nat ->
       two_nodes !! n = Some v -> h' !! n = Some v).
Proof.
  apply (mul_records_cross_values two_nodes 0%nat 1%nat
           (mk 1.5 [] None) (mk 2.5 [] None)); reflexivity.
Defined.

(** [x = Var(1e200); y = x * x; z = x * y] is built by the forward
    operations, whatever the library functions are. *)
Lemma overflow_graph_forward_any (math_sin math_cos : float -> option float) :
  forward_built math_sin math_cos overflow_graph.
Proof.
  unfold forward_built.
  eapply rtc_l; [eapply (op_init _ _ 1e200); reflexivity|].
  eapply rtc_l; [eapply (op_mul _ _ 0 0); reflexivity|].
  eapply rtc_l; [eapply (op_mul _ _ 0 1); reflexivity|].
  apply rtc_refl.
Qed.

(** C8, as the claim states it, fails at an infinite value: in
    [x = Var(1e200); y = x * x] the forward operations give [y] the value
    infinity, there the library raises, and [sin(y)] raises instead of
    returning a new node. *)
Lemma sin_raises_at_infinity :
  forward_built sin_domain cos_domain overflow_graph /\
  value <$> overflow_graph !! 1%nat = Some infinity /\
  sin_domain infinity = None /\
  sin sin_domain cos_domain 1%nat overflow_graph = None.
Proof.
  split; [apply overflow_graph_forward_any|]. repeat split; reflexivity.
Qed.

(** C8, amended.  For every node [x] of a store: if [math.sin] and
    [math.cos] return [s] and [c] at [x.value], [sin(x)] returns a node that
    was not in the store; the new store has that one node more, whose value
    is [s] and which has no children and no gradient; the single edge
    [(c, output)] is appended to the children of [x]; values, gradients and
    the children of all other nodes are unchanged.  If one of the two
    library calls raises at [x.value], [sin(x)] raises and returns no
    node. *)
Theorem sin_records_cos (math_sin math_cos : float -> option float)
    (h : heap) (x : addr) (v : Var.t) :
  h !! x = Some v ->
  match math_sin (value v), math_cos (value v) with
  | Some s, Some c =>
      exists h',
        sin math_sin math_cos x h = Some (length h, h') /\
        h !! length h = None /\ length h' = S (length h) /\
        h' !! length h = Some (mk s [] None) /\
        h' !! x
        = Some (mk (value v) (children v ++ [(c, length h)]) (grad_value v)) /\
        (forall n w, n <> x -> h !! n = Some w -> h' !! n = Some w)
  | _, _ => sin math_sin math_cos x h = None
  end.
Proof.
  intros Ex.
  assert (Hfail : math_sin (value v) = None \/ math_cos (value v) = None ->
                  sin math_sin math_cos x h = None).
  { intros Hnone.
    destruct (sin math_sin math_cos x h) as [[z h']|] eqn:Hrun; [|reflexivity].
    destruct (sin_inv _ _ _ _ _ _ Hrun) as (v0 & s & c & E0 & Es & Ec).
    assert (v0 = v) as -> by congruence.
    destruct Hnone; congruence. }
  destruct (math_sin (value v)) as [s|] eqn:Es; [|now apply Hfail; left].
  destruct (math_cos (value v)) as [c|] eqn:Ec; [|now apply Hfail; right].
  destruct (sin_effect math_sin math_cos h x v s c Ex Es Ec)
    as (h' & Hrun & Hfresh & Hlen & Hout & Hold).
  exists h'. repeat split; try assumption.
  - now rewrite (Hold _ _ Ex), edge_for_same.
  - intros n w Hne E. rewrite (Hold _ _ E), edge_for_other by assumption.
    apply f_equal, unchanged_node.
Qed.

Lemma sin_records_cos_witness :
  exists h',
    sin sin_half cos_half 0%nat [mk 0.5 [] None] = Some (1%nat, h') /\
    [mk 0.5 [] None] !! 1%nat = None /\ length h' = 2%nat /\
    h' !! 1%nat = Some (mk 0.479425538604203 [] None) /\
    h' !! 0%nat = Some (mk 0.5 ([] ++ [(0.8775825618903728, 1%nat)]) None) /\
    (forall n w, n <> 0%nat -> [mk 0.5 [] None] !! n = Some w -> h' !! n = Some w).
Proof.
  exact (sin_records_cos sin_half cos_half [mk 0.5 [] None] 0%nat
           (mk 0.5 [] None) eq_refl).
Defined.

(** ** The multi-use scenario *)

Lemma neg_zero_SF x : Prim2SF x = S754_zero true -> x = neg_zero.
Proof. intros E. rewrite <- (SF2Prim_Prim2SF x), E. reflexivity. Qed.

(** The float that two accumulated edges of weight [xv] and gradient 1.0
    give is the float [2.0 * xv], unless [xv] is [-0.0]. *)
Lemma two_edges_double xv :
  xv <> neg_zero -> (0 + xv * 1) + xv * 1 = 2 * xv.
Proof.
  intros Hx. rewrite float_mul_one_r, float_add_zero_l, float_add_diag.
  - reflexivity.
  - intros E. apply Hx, neg_zero_SF, E.
Qed.

(** A float passes the tolerance test against itself exactly when it is
    finite: the difference of an infinity or a NaN with itself is NaN. *)
Lemma within_self r : within 1e-12 r r = is_finite r.
Proof.
  destruct (is_finite r) eqn:Hfin.
  - unfold within. now rewrite (float_sub_diag _ Hfin).
  - unfold within.
    rewrite FloatAxioms.leb_spec, FloatAxioms.abs_spec, FloatAxioms.sub_spec.
    pose proof (proj2 (is_finite_SF r)) as Hsf.
    destruct (Prim2SF r) as [s|s| |s m e].
    + rewrite Hsf in Hfin by exact I. discriminate.
    + destruct s; reflexivity.
    + reflexivity.
    + rewrite Hsf in Hfin by exact I. discriminate.
Qed.

Lemma two_edges_within xv :
  within 1e-12 ((0 + xv * 1) + xv * 1) (2 * xv) = is_finite (2 * xv).
Proof.
  destruct (Prim2SF xv) as [[|]| | |] eqn:E.
  1: { apply neg_zero_SF in E. subst xv. reflexivity. }
  all: rewrite two_edges_double
    by (intros ->; vm_compute in E; discriminate);
    apply within_self.
Qed.

(** The run of the scenario on a node [x] of any store [h] that has no
    children and no cached gradient; [y] is the fresh node at [length h]. *)
Lemma square_grad_at_run (h : heap) (x : addr) (v : Var.t) (depth : nat) :
  h !! x = Some v -> children v = [] -> grad_value v = None ->
  exists h',
    square_grad_at (S (S depth)) x h
    = Some ((0 + value v * 1) + value v * 1, h') /\
    h' !! x
    = Some (mk (value v) [(value v, length h); (value v, length h)]
               (Some ((0 + value v * 1) + value v * 1))).
Proof.
  intros Ex Hleaf Hnone. pose proof (lookup_lt_Some _ _ _ Ex) as Lx.
  destruct (mul_effect h x x v v Ex Ex) as (h2 & Hmul & _ & L2 & E2y & Hold).
  specialize (Hold x v Ex).
  rewrite !edge_for_same, Hleaf, Hnone in Hold. simpl in Hold.
  remember (length h) as y eqn:Hy.
  remember (<[y := mk (value v * value v) [] (Some 1)]> h2) as h3 eqn:Hh3.
  assert (E3y : h3 !! y = Some (mk (value v * value v) [] (Some 1)))
    by (subst h3; apply list_lookup_insert_eq; lia).
  assert (E3x : h3 !! x = Some (mk (value v) [(value v, y); (value v, y)] None)).
  { subst h3. rewrite list_lookup_insert_ne by lia. exact Hold. }
  assert (Gy : grad (S depth) y h3 = Some (1, h3)).
  { now rewrite grad_unfold, E3y. }
  eexists. split.
  - unfold square_grad_at, bind at 1. rewrite Hmul.
    unfold bind at 1. rewrite (set_grad_value_Some _ _ _ _ E2y).
    simpl value. simpl children. rewrite <- Hh3.
    rewrite grad_unfold, E3x. simpl grad_value. simpl children.
    rewrite !sum_gen_cons, !grad_term_unfold, Gy.
    rewrite sum_gen_cons, grad_term_unfold, Gy. simpl sum_gen. unfold ret.
    rewrite (set_grad_value_Some _ _ _ _ E3x). reflexivity.
  - apply list_lookup_insert_eq. subst h3. rewrite length_insert. lia.
Qed.

(** C4, as the claim states it, fails where [2.0 * x.value] is not finite:
    for [x = Var(1e308)] the gradient and [2.0 * x.value] are both infinity,
    for [x = Var(nan)] both are NaN, and [abs(g - 2.0 * x.value) <= 1e-12]
    is false in both cases. *)
Lemma square_grad_not_within :
  (exists h', square_grad 2 1e308 [] = Some (infinity, h')) /\
  within 1e-12 infinity (2 * 1e308) = false /\
  (exists h', square_grad 2 nan [] = Some (nan, h')) /\
  within 1e-12 nan (2 * nan) = false.
Proof. repeat split; try eexists; reflexivity. Qed.

(** C4, amended.  For every node [x] of a store that has no cached gradient
    and no consumer yet, building
    [y = multiply(x, x)], seeding [y] with 1.0 and requesting [grad(x)]
    returns [g = (0 + v * 1.0) + v * 1.0] for [v = x.value]: the sum over the
    two edges that the one call appended to [x] (both are in its children
    list, and [g] is cached on [x]).  [g] is the float [2.0 * v], except that
    it is [+0.0] for [v = -0.0], and [abs(g - 2.0 * v) <= 1e-12] is true
    exactly when [2.0 * v] is finite: it is false when [2.0 * v] is an
    infinity or NaN. *)
Theorem square_grad_doubles (h : heap) (x : addr) (v : Var.t) (depth : nat) :
  h !! x = Some v -> children v = [] -> grad_value v = None ->
  exists g h',
    square_grad_at (S (S depth)) x h = Some (g, h') /\
    g = (0 + value v * 1) + value v * 1 /\
    h' !! x
    = Some (mk (value v) [(value v, length h); (value v, length h)] (Some g)) /\
    (value v <> neg_zero -> g = 2 * value v) /\
    (value v = neg_zero -> g = 0) /\
    within 1e-12 g (2 * value v) = is_finite (2 * value v).
Proof.
  intros Ex Hleaf Hnone.
  destruct (square_grad_at_run h x v depth Ex Hleaf Hnone) as (h' & Hrun & Ex').
  exists ((0 + value v * 1) + value v * 1), h'.
  split; [exact Hrun|]. split; [reflexivity|]. split; [exact Ex'|].
  split; [apply two_edges_double|]. split; [now intros ->|].
  apply two_edges_within.
Qed.

Lemma square_grad_doubles_witness :
  exists g h',
    square_grad_at 2 0%nat [mk 3.0 [] None] = Some (g, h') /\
    g = (0 + 3.0 * 1) + 3.0 * 1 /\
    h' !! 0%nat = Some (mk 3.0 [(3.0, 1%nat); (3.0, 1%nat)] (Some g)) /\
    (3.0 <> neg_zero -> g = 2 * 3.0) /\
    (3.0 = neg_zero -> g = 0) /\
    within 1e-12 g (2 * 3.0) = is_finite (2 * 3.0).
Proof.
  apply (square_grad_doubles [mk 3.0 [] None] 0%nat (mk 3.0 [] None) 0);
    reflexivity.
Defined.

(** ** The script *)

(** C3. When [math.sin(0.5)] and [math.cos(0.5)] return the doubles
    0.479425538604203 and 0.8775825618903728, the script (nodes [x = 0.5] and
    [y = 4.2], [z = x * y + sin(x)], [z] seeded with 1.0) runs to its end at
    any recursion depth from 3 on, and its three checks hold with the
    tolerance 1e-12, and with the tolerance 1e-15 that the script itself
    uses: [z.value] against 2.579425538604203, [x.grad()] against
    [y.value + math.cos(x.value)], and [y.grad()] against [x.value]. *)
Theorem script_assertions_hold (math_sin math_cos : float -> option float)
    (depth : nat) :
  math_sin 0.5 = Some 0.479425538604203 ->
  math_cos 0.5 = Some 0.8775825618903728 ->
  exists h',
    script math_sin math_cos (S (S (S depth))) 1e-12 []
    = Some (true, true, true, h') /\
    script math_sin math_cos (S (S (S depth))) 1e-15 []
    = Some (true, true, true, h').
Proof.
  intros Hs Hc. eexists.
  split; vm_compute; rewrite Hs; vm_compute; rewrite Hc; vm_compute;
    rewrite Hc; vm_compute; reflexivity.
Qed.

Lemma script_assertions_hold_witness :
  exists h',
    script sin_half cos_half 3 1e-12 [] = Some (true, true, true, h') /\
    script sin_half cos_half 3 1e-15 [] = Some (true, true, true, h').
Proof.
  apply (script_assertions_hold sin_half cos_half 0); reflexivity.
Defined.

(** ** Memoisation and termination *)

(** C5. On every store the program can reach and for every node [n] of it,
    [grad(n)] returns some [g] (at any recursion depth from the depth of the
    graph below [n] on), and a second call right after returns the same [g];
    the second call needs a single frame, so it makes no recursive call, and
    it returns the store exactly as it found it. *)
Theorem grad_twice_same (math_sin math_cos : float -> option float)
    (h : heap) (n : addr) (depth : nat) :
  reachable math_sin math_cos h -> (n < length h)%nat ->
  (graph_depth h n <= depth)%nat ->
  exists g h',
    grad depth n h = Some (g, h') /\
    grad 1 n h' = Some (g, h') /\
    forall depth', grad (S depth') n h' = Some (g, h').
Proof.
  intros Hr Hn Hd. pose proof (reachable_edges_later _ _ _ Hr) as Hl.
  destruct (grad_returns h n depth Hl Hn Hd) as (g & h' & Hrun).
  destruct (grad_sound _ _ _ _ _ Hrun) as (_ & _ & (v' & E' & Hg')).
  exists g, h'. split; [exact Hrun|].
  split; [|intros depth']; now rewrite grad_unfold, E', Hg'.
Qed.

Lemma grad_twice_same_witness :
  exists g h',
    grad 3 0%nat script_graph = Some (g, h') /\
    grad 1 0%nat h' = Some (g, h') /\
    forall depth', grad (S depth') 0%nat h' = Some (g, h').
Proof.
  apply (grad_twice_same sin_half cos_half script_graph 0%nat 3).
  - exact script_graph_reachable.
  - vm_compute. lia.
  - vm_compute. lia.
Defined.

(** A path of children edges leads to a node created later. *)
Lemma child_path_later h n m :
  edges_later h -> tc (child_edge h) n m -> (n < m)%nat.
Proof.
  intros Hl Hp. induction Hp as [n m (v & w & E & Hin)|n c m (v & w & E & Hin) _ IH].
  - destruct (Hl n v w m E Hin). lia.
  - destruct (Hl n v w c E Hin). lia.
Qed.

(** C6. On every store reached by forward operations (and by seedings and
    [grad] calls, which add no edge), every children edge points to a node
    created strictly later, so no path of children edges leads from a node
    back to itself; for every node [n] the depth of the graph below [n] is at
    most the number of nodes created from [n] on, and [grad(n)] returns at
    every recursion depth from that graph depth on. *)
Theorem grad_terminates (math_sin math_cos : float -> option float)
    (h : heap) :
  reachable math_sin math_cos h ->
  edges_later h /\
  (forall n, ~ tc (child_edge h) n n) /\
  forall n, (n < length h)%nat ->
    (graph_depth h n <= length h - n)%nat /\
    forall depth, (graph_depth h n <= depth)%nat ->
      exists g h', grad depth n h = Some (g, h').
Proof.
  intros Hr. pose proof (reachable_edges_later _ _ _ Hr) as Hl.
  split; [exact Hl|]. split.
  - intros n Hp. apply (child_path_later h n n Hl) in Hp. lia.
  - intros n Hn. split; [apply graph_depth_le|].
    intros depth Hd. now apply grad_returns.
Qed.

Lemma grad_terminates_witness :
  edges_later script_graph /\
  (forall n, ~ tc (child_edge script_graph) n n) /\
  forall n, (n < length script_graph)%nat ->
    (graph_depth script_graph n <= length script_graph - n)%nat /\
    forall depth, (graph_depth script_graph n <= depth)%nat ->
      exists g h', grad depth n script_graph = Some (g, h').
Proof.
  apply (grad_terminates sin_half cos_half script_graph).
  exact script_graph_reachable.
Defined.

(** ** Gradients without a seeded root, and stale caches *)

Lemma weights_finite_spec h :
  weights_finite h = true ->
  forall n v w c, h !! n = Some v -> (w, c) ∈ children v -> is_finite w = true.
Proof.
  intros Hw n v w c E Hin. unfold weights_finite in Hw.
  rewrite forallb_forall in Hw.
  specialize (Hw v (proj1 (list_elem_of_In _ _) (list_elem_of_lookup_2 _ _ _ E))).
  rewrite forallb_forall in Hw.
  apply (Hw (w, c)), list_elem_of_In, Hin.
Qed.

(** With nothing cached and finite weights, every total derivative is
    [+0.0]. *)
Lemma uncached_derivative_zero h :
  (forall n v, h !! n = Some v -> grad_value v = None) ->
  weights_finite h = true ->
  forall n g, derivative h n g -> g = 0.
Proof.
  intros Hnone Hw. pose proof (weights_finite_spec h Hw) as Hfin.
  enough (H : (forall n g, derivative h n g -> g = 0) /\
              (forall l acc s, weighted_sum h l acc s ->
                 (forall w c, (w, c) ∈ l -> is_finite w = true) ->
                 acc = 0 -> s = 0)) by apply H.
  apply derivative_weighted_sum_ind.
  - intros n v g E Hg. rewrite (Hnone n v E) in Hg. discriminate.
  - intros n v s E _ _ IH. apply IH; [|reflexivity].
    intros w c Hin. exact (Hfin n v w c E Hin).
  - intros acc _ Hacc. exact Hacc.
  - intros w c l acc g s _ -> _ IH Hl ->. apply IH.
    + intros w' c' Hin. apply (Hl w' c'). now right.
    + apply float_add_zero_mul_zero, (Hl w c). left.
Qed.

(** A call of [grad] leaves every cached gradient as it is. *)
Lemma grad_call_keeps_cached h h' n c :
  grad_call h h' -> cached h n c -> cached h' n c.
Proof.
  intros (depth & m & g & Hrun) (v & E & Hc).
  destruct (grad_sound _ _ _ _ _ Hrun) as (_ & [_ Hext] & _).
  destruct (Hext n v E) as (v' & E' & _ & _ & [Hsame | [Hnone _]]).
  - exists v'. split; [exact E'|congruence].
  - congruence.
Qed.

Lemma grad_cached h n c depth :
  cached h n c -> grad (S depth) n h = Some (c, h).
Proof. intros (v & E & Hc). now rewrite grad_unfold, E, Hc. Qed.

(** Before a root is seeded: on a graph built by the forward operations
    alone, [grad] returns, and it returns [+0.0] when all weights are
    finite. *)
Lemma unseeded_grad math_sin math_cos h n depth :
  forward_built math_sin math_cos h -> (n < length h)%nat ->
  (graph_depth h n <= depth)%nat ->
  exists g h', grad depth n h = Some (g, h') /\
    (weights_finite h = true -> g = 0).
Proof.
  intros Hf Hn Hd.
  pose proof (reachable_edges_later _ _ _ (forward_built_reachable _ _ _ Hf)) as Hl.
  destruct (grad_returns h n depth Hl Hn Hd) as (g & h' & Hrun).
  exists g, h'. split; [exact Hrun|]. intros Hw.
  destruct (grad_sound _ _ _ _ _ Hrun) as (D & _).
  eapply uncached_derivative_zero; eauto.
  apply (forward_built_uncached _ _ _ Hf).
Qed.

Lemma unseeded_graph_forward : forward_built sin_half cos_half unseeded_graph.
Proof.
  unfold forward_built.
  eapply rtc_l; [eapply (op_init _ _ 0.5); reflexivity|].
  eapply rtc_l; [eapply (op_init _ _ 4.2); reflexivity|].
  eapply rtc_l; [eapply (op_mul _ _ 0 1); reflexivity|].
  apply rtc_refl.
Qed.

Lemma overflow_graph_forward : forward_built sin_half cos_half overflow_graph.
Proof.
  unfold forward_built.
  eapply rtc_l; [eapply (op_init _ _ 1e200); reflexivity|].
  eapply rtc_l; [eapply (op_mul _ _ 0 0); reflexivity|].
  eapply rtc_l; [eapply (op_mul _ _ 0 1); reflexivity|].
  apply rtc_refl.
Qed.

(** C9, as the claim states it, fails: [x = Var(1e200); y = x * x;
    z = x * y] is built by the forward operations from a finite input and
    nothing is seeded, [y.value] overflows to infinity and is recorded as a
    weight on [x], and [grad(x)] returns NaN, not 0. *)
Lemma unseeded_grad_nan :
  forward_built sin_half cos_half overflow_graph /\
  (forall n v, overflow_graph !! n = Some v -> grad_value v = None) /\
  exists h', grad 3 0%nat overflow_graph = Some (nan, h') /\
             (nan =? 0) = false.
Proof.
  split; [exact overflow_graph_forward|].
  split; [apply (forward_built_uncached _ _ _ overflow_graph_forward)|].
  eexists. split; reflexivity.
Qed.

(** C9, amended.  On every graph built by the forward operations alone, so
    that no gradient was ever cached, and in which every recorded weight is
    finite, [grad] returns [+0.0] for every node, at every recursion depth
    from the depth of the graph below the node on. *)
Theorem unseeded_grad_zero (math_sin math_cos : float -> option float)
    (h : heap) (n : addr) (depth : nat) :
  forward_built math_sin math_cos h -> weights_finite h = true ->
  (n < length h)%nat -> (graph_depth h n <= depth)%nat ->
  exists h', grad depth n h = Some (0, h').
Proof.
  intros Hf Hw Hn Hd.
  destruct (unseeded_grad _ _ h n depth Hf Hn Hd) as (g & h' & Hrun & Hg).
  exists h'. now rewrite <- (Hg Hw).
Qed.

Lemma unseeded_grad_zero_witness :
  exists h', grad 2 0%nat unseeded_graph = Some (0, h').
Proof.
  apply (unseeded_grad_zero sin_half cos_half unseeded_graph 0%nat 2).
  - exact unseeded_graph_forward.
  - reflexivity.
  - vm_compute. lia.
  - vm_compute. lia.
Defined.

(** Seeding a node leaves the cached gradients of the other nodes alone. *)
Lemma seed_keeps_cached h r g u h' n c :
  set_grad_value r g h = Some (u, h') -> r <> n ->
  cached h n c -> cached h' n c.
Proof.
  intros (vr & Er & ->)%set_grad_value_inv Hne (v & E & Hc).
  exists v. now rewrite list_lookup_insert_ne.
Qed.

(** C10, as the claim states it, fails on its value: on the graph
    [x = Var(1e200); y = x * x; z = x * y], [grad(x)] called before any
    seeding caches NaN, not 0, and after [z] is seeded [grad(x)] returns that
    NaN again. *)
Lemma stale_gradient_nan :
  forward_built sin_half cos_half overflow_graph /\
  exists h', grad_seed_grad 3 0%nat 2%nat overflow_graph
             = Some ((nan, nan), h') /\
             (nan =? 0) = false.
Proof.
  split; [exact overflow_graph_forward|]. eexists. split; reflexivity.
Qed.

(** C10, amended.  A cached gradient is never recomputed or changed by
    [grad]: after any number of calls of [grad], on any nodes, a gradient
    that was cached is still cached with the same number, and [grad] on that
    node returns it without touching the store.  In particular, on a graph
    built by the forward operations alone, [grad(x)] called before any
    seeding caches the number [g] it returns ([g] is [+0.0] when every
    recorded weight is finite), and after another node [r] is seeded with 1.0
    a second [grad(x)] returns the same stale [g]. *)
Theorem stale_gradient_stays (math_sin math_cos : float -> option float) :
  (forall h h' n c,
     cached h n c -> rtc grad_call h h' ->
     cached h' n c /\ forall depth, grad (S depth) n h' = Some (c, h')) /\
  (forall h x r depth,
     forward_built math_sin math_cos h ->
     (x < length h)%nat -> (r < length h)%nat -> r <> x ->
     (graph_depth h x <= depth)%nat ->
     exists g h',
       grad_seed_grad depth x r h = Some ((g, g), h') /\
       cached h' x g /\ cached h' r 1 /\
       (weights_finite h = true -> g = 0)).
Proof.
  split.
  - intros h h' n c Hc Hcalls.
    assert (Hc' : cached h' n c).
    { induction Hcalls as [|h1 h2 h3 Hcall _ IH]; [exact Hc|].
      apply IH. eapply grad_call_keeps_cached; eauto. }
    split; [exact Hc'|]. intros depth. now apply grad_cached.
  - intros h x r depth Hf Hx Hr Hne Hd.
    destruct (unseeded_grad _ _ h x depth Hf Hx Hd) as (g & h1 & Hrun & Hg).
    destruct (grad_sound _ _ _ _ _ Hrun) as (_ & [Hlen _] & Hc1).
    destruct depth as [|depth]; [discriminate|].
    rewrite <- Hlen in Hr. destruct (lookup_lt_is_Some_2 _ _ Hr) as [vr Er].
    pose proof (set_grad_value_Some _ _ _ 1 Er) as Hseed.
    pose proof (seed_keeps_cached _ _ _ _ _ _ _ Hseed Hne Hc1) as Hc2.
    eexists g, _. repeat split.
    + unfold grad_seed_grad, bind at 1. rewrite Hrun.
      unfold bind at 1. rewrite Hseed.
      unfold bind at 1. rewrite (grad_cached _ _ _ _ Hc2). reflexivity.
    + exact Hc2.
    + eexists. rewrite list_lookup_insert_eq by exact Hr. eauto.
    + exact Hg.
Qed.

Lemma stale_gradient_stays_witness :
  exists g h',
    grad_seed_grad 2 0%nat 2%nat unseeded_graph = Some ((g, g), h') /\
    cached h' 0%nat g /\ cached h' 2%nat 1 /\
    (weights_finite unseeded_graph = true -> g = 0).
Proof.
  apply (proj2 (stale_gradient_stays sin_half cos_half)
           unseeded_graph 0%nat 2%nat 2%nat).
  - exact unseeded_graph_forward.
  - vm_compute. lia.
  - vm_compute. lia.
  - discriminate.
  - vm_compute. lia.
Defined.

(** On that graph the stale gradient of [x] is 0, while seeding [z] first
    gives 4.2. *)
Example stale_zero_versus_seeded :
  fst <$> grad_seed_grad 2 0%nat 2%nat unseeded_graph = Some (0, 0) /\
  fst <$> (set_grad_value 2%nat 1 ;; grad 2 0%nat)%M unseeded_graph = Some 4.2.
Proof. split; reflexivity. Qed.

(** * Further properties of the code *)

(** ** The store only grows *)

(** What every statement of the program keeps of a store: the nodes, their
    values, and their children as a prefix of the new children. *)
Lemma forward_op_grows math_sin math_cos h h' :
  forward_op math_sin math_cos h h' -> store_grows h h'.
Proof.
  intros Hop.
  destruct (forward_op_shape _ _ _ _ Hop)
    as (out & edges & (_ & Hlen & _ & Hold) & _).
  split; [lia|]. intros n v E. eexists. split; [apply (Hold n v E)|].
  simpl. split; [reflexivity|]. now apply prefix_app_r.
Qed.

Lemma seed_grows z g h u h' :
  set_grad_value z g h = Some (u, h') -> store_grows h h'.
Proof.
  intros (vz & Ez & ->)%set_grad_value_inv. split.
  - now rewrite length_insert.
  - intros n v E. destruct (decide (n = z)) as [->|Hne].
    + rewrite list_lookup_insert_eq by (eapply lookup_lt_Some; eauto).
      eexists. split; [reflexivity|]. simpl.
      assert (vz = v) as -> by congruence. auto.
    + rewrite list_lookup_insert_ne by congruence. eauto.
Qed.

Lemma memo_extends_grows h h' : memo_extends h h' -> store_grows h h'.
Proof.
  intros [Hlen Hext]. split; [lia|]. intros n v E.
  destruct (Hext n v E) as (v' & E' & Hv & Hc & _).
  exists v'. rewrite Hc. auto.
Qed.

Lemma store_grows_trans h1 h2 h3 :
  store_grows h1 h2 -> store_grows h2 h3 -> store_grows h1 h3.
Proof.
  intros [L12 H12] [L23 H23]. split; [lia|]. intros n v1 E1.
  destruct (H12 n v1 E1) as (v2 & E2 & Hv2 & Hc2).
  destruct (H23 n v2 E2) as (v3 & E3 & Hv3 & Hc3).
  exists v3. repeat split; [assumption|congruence|].
  etransitivity; eauto.
Qed.

(** X1. Whatever statements of the program run, in whatever order (forward
    operations, seedings, calls of [grad]), a node once created stays in the
    store with the value it was created with, and its children list only
    ever gets longer at the end: nothing is removed or reordered. *)
Theorem store_only_grows (math_sin math_cos : float -> option float)
    (h h' : heap) :
  rtc (fun h h' => forward_op math_sin math_cos h h' \/ reverse_op h h')
      h h' ->
  (length h <= length h')%nat /\
  forall n v, h !! n = Some v ->
    exists v', h' !! n = Some v' /\ value v' = value v /\
               children v `prefix_of` children v'.
Proof.
  intros Hrun. change (store_grows h h').
  induction Hrun as [h|h1 h2 h3 Hstep _ IH].
  - split; [lia|]. intros n v E. exists v. auto.
  - eapply store_grows_trans; [|exact IH].
    destruct Hstep as [Hop | [z ? ? Hseed | depth n ? g ? Hrun]].
    + eapply forward_op_grows; eauto.
    + eapply seed_grows; eauto.
    + apply memo_extends_grows. now destruct (grad_sound _ _ _ _ _ Hrun) as (_ & ? & _).
Qed.

Lemma store_only_grows_witness :
  (length two_nodes <= length two_nodes_added)%nat /\
  forall n v, two_nodes !! n = Some v ->
    exists v', two_nodes_added !! n = Some v' /\ value v' = value v /\
               children v `prefix_of` children v'.
Proof.
  apply (store_only_grows sin_half cos_half two_nodes two_nodes_added).
  eapply rtc_l; [left; eapply (op_add _ _ 0 1); reflexivity|].
  apply rtc_refl.
Defined.

(** ** The forward pass and the gradients *)

(** X2. The forward operations never set or change a gradient: after any
    number of them every old node has the cached gradient it had (or none,
    if it had none), and every node they created has none. *)
Theorem forward_keeps_gradients (math_sin math_cos : float -> option float)
    (h h' : heap) :
  rtc (forward_op math_sin math_cos) h h' ->
  forall n v', h' !! n = Some v' ->
    grad_value v' = match h !! n with
                    | Some v => grad_value v
                    | None => None
                    end.
Proof.
  intros Hrun. induction Hrun as [h|h1 h2 h3 Hop _ IH]; intros n v' E'.
  - now rewrite E'.
  - rewrite (IH n v' E').
    destruct (forward_op_shape _ _ _ _ Hop)
      as (out & edges & (_ & Hlen & Hout & Hold) & _ & Hnone & _).
    destruct (h1 !! n) as [v1|] eqn:E1.
    + now rewrite (Hold n v1 E1).
    + apply lookup_ge_None in E1.
      destruct (h2 !! n) as [v2|] eqn:E2; [|reflexivity].
      pose proof (lookup_lt_Some _ _ _ E2) as L2.
      assert (n = length h1) as -> by lia. congruence.
Qed.

Lemma forward_keeps_gradients_witness :
  grad_value (mk (1.5 + 2.5) [] None)
  = match two_nodes !! 2%nat with
    | Some v => grad_value v
    | None => None
    end.
Proof.
  apply (forward_keeps_gradients sin_half cos_half two_nodes two_nodes_added).
  - eapply rtc_l; [eapply (op_add _ _ 0 1); reflexivity|]. apply rtc_refl.
  - reflexivity.
Defined.

(** X3. [sin(x)] on a node of the store raises exactly when [math.sin] or
    [math.cos] raises at [x.value]; there is no other way for it to fail. *)
Theorem sin_raises_iff (math_sin math_cos : float -> option float)
    (h : heap) (x : addr) (v : Var.t) :
  h !! x = Some v ->
  (sin math_sin math_cos x h = None <->
   math_sin (value v) = None \/ math_cos (value v) = None).
Proof.
  intros Ex. split.
  - intros Hfail.
    destruct (math_sin (value v)) as [s|] eqn:Es; [|now left].
    destruct (math_cos (value v)) as [c|] eqn:Ec; [|now right].
    destruct (sin_effect math_sin math_cos h x v s c Ex Es Ec) as (h' & Hrun & _).
    congruence.
  - intros Hnone.
    destruct (sin math_sin math_cos x h) as [[z h']|] eqn:Hrun; [|reflexivity].
    destruct (sin_inv _ _ _ _ _ _ Hrun) as (v0 & s & c & E0 & Es & Ec).
    assert (v0 = v) as -> by congruence.
    destruct Hnone; congruence.
Qed.

Lemma sin_raises_iff_witness :
  sin sin_half cos_half 0%nat [mk 0.5 [] None] = None <->
  sin_half 0.5 = None \/ cos_half 0.5 = None.
Proof.
  apply (sin_raises_iff sin_half cos_half [mk 0.5 [] None] 0%nat
           (mk 0.5 [] None)).
  reflexivity.
Defined.

(** ** The order and the depth of gradient requests *)




Lemma sum_gen_mono (term term' : float * addr -> M float) :
  (forall e h r, term e h = Some r -> term' e h = Some r) ->
  forall l acc h r,
    sum_gen term l acc h = Some r -> sum_gen term' l acc h = Some r.
Proof.
  intros Hterm. induction l as [|e l IH]; intros acc h r Hrun; [exact Hrun|].
  rewrite sum_gen_cons in Hrun |- *.
  destruct (term e h) as [[t h1]|] eqn:Et; [|discriminate].
  rewrite (Hterm _ _ _ Et). now apply IH.
Qed.

(** X5. The result of [grad] does not depend on how deep the recursion may
    go: if the call returns within some depth, it returns the same number and
    leaves the same store within every greater depth. *)
Theorem grad_depth_irrelevant (depth depth' : nat) (n : addr) (h : heap)
    (r : float * heap) :
  grad depth n h = Some r -> (depth <= depth')%nat -> grad depth' n h = Some r.
Proof.
  revert depth' n h r.
  induction depth as [|depth IH]; intros depth' n h r Hrun Hle; [discriminate|].
  destruct depth' as [|depth']; [lia|].
  rewrite grad_unfold in Hrun |- *.
  destruct (h !! n) as [v|]; [|discriminate].
  destruct (grad_value v); [exact Hrun|].
  destruct (sum_gen (grad_term depth) _ _ h) as [[s h1]|] eqn:Es; [|discriminate].
  rewrite (sum_gen_mono (grad_term depth) (grad_term depth')) with (r := (s, h1)).
  - exact Hrun.
  - intros [w c] h0 r0. rewrite !grad_term_unfold.
    destruct (grad depth c h0) as [[g0 h0']|] eqn:Eg; [|discriminate].
    now rewrite (IH depth' c h0 _ Eg) by lia.
  - exact Es.
Qed.

Lemma grad_depth_irrelevant_witness :
  exists r, grad 3 0%nat script_graph = Some r /\
            grad 1000 0%nat script_graph = Some r.
Proof.
  eexists. split; [reflexivity|].
  apply (grad_depth_irrelevant 3 1000 0%nat script_graph); [reflexivity|lia].
Defined.

(** ** What one request leaves cached *)

Lemma memo_extends_cached h h' n c :
  memo_extends h h' -> cached h n c -> cached h' n c.
Proof.
  intros [_ Hext] (v & E & Hc).
  destruct (Hext n v E) as (v' & E' & _ & _ & [Hsame | [Hnone _]]).
  - exists v'. split; [exact E'|congruence].
  - congruence.
Qed.

Lemma memo_extends_child_edge h h' n c :
  memo_extends h h' -> child_edge h n c -> child_edge h' n c.
Proof.
  intros [_ Hext] (v & w & E & Hin).
  destruct (Hext n v E) as (v' & E' & _ & Hc & _).
  exists v', w. rewrite Hc. auto.
Qed.

Lemma explored_refl h : explored h h.
Proof.
  intros x c (v & E & Hnone) (gx & v' & E' & Hc) _. congruence.
Qed.

Lemma explored_trans h1 h2 h3 :
  memo_extends h1 h2 -> memo_extends h2 h3 ->
  explored h1 h2 -> explored h2 h3 -> explored h1 h3.
Proof.
  intros M12 M23 X12 X23 x c Hx (gx & Hgx) Hedge.
  destruct Hx as (v1 & E1 & Hnone).
  destruct (proj2 M12 x v1 E1) as (v2 & E2 & _ & _ & Hg2).
  destruct (grad_value v2) as [g2|] eqn:Eg2.
  - destruct (X12 x c) as (gc & Hgc); [exists v1; auto|exists g2, v2; auto|exact Hedge|].
    exists gc. eapply memo_extends_cached; eauto.
  - apply (X23 x c); [exists v2; auto|eauto|].
    eapply memo_extends_child_edge; eauto.
Qed.

Lemma grad_explores depth : forall n h g h',
  grad depth n h = Some (g, h') -> explored h h'.
Proof.
  induction depth as [|depth IH]; intros n h g h' Hrun; [discriminate|].
  rewrite grad_unfold in Hrun.
  destruct (h !! n) as [v|] eqn:En; [|discriminate].
  destruct (grad_value v) as [c|] eqn:Ec.
  - injection Hrun as <- <-. apply explored_refl.
  - destruct (sum_gen _ _ _ h) as [[s h1]|] eqn:Es; [|discriminate].
    assert (Hloop : forall l acc h0 s0 h2,
              sum_gen (grad_term depth) l acc h0 = Some (s0, h2) ->
              memo_extends h0 h2 /\ explored h0 h2 /\
              forall w c, (w, c) ∈ l -> exists gc, cached h2 c gc).
    { clear Es. induction l as [|[w c] l IHl]; intros acc h0 s0 h2 Hsum.
      - injection Hsum as <- <-.
        split; [apply memo_extends_refl|]. split; [apply explored_refl|].
        now intros w c ?%elem_of_nil.
      - rewrite sum_gen_cons, grad_term_unfold in Hsum.
        destruct (grad depth c h0) as [[gc h0']|] eqn:Eg; [|discriminate].
        destruct (grad_sound _ _ _ _ _ Eg) as (_ & M0 & Hc).
        destruct (IHl _ _ _ _ Hsum) as (M1 & X1 & Hrest).
        split; [eapply memo_extends_trans; eauto|].
        split; [eapply explored_trans; eauto|].
        intros w' c' [Heq | Hin]%elem_of_cons.
        + injection Heq as -> ->. exists gc.
          eapply memo_extends_cached; eauto.
        + eauto. }
    destruct (Hloop _ _ _ _ _ Es) as (M1 & X1 & Hch).
    destruct (proj2 M1 n v En) as (v1 & E1 & _ & Hc1 & _).
    rewrite (set_grad_value_Some _ _ _ _ E1) in Hrun. injection Hrun as <- <-.
    pose proof (lookup_lt_Some _ _ _ E1) as L1.
    assert (Hkeep : forall m gm, cached h1 m gm ->
              exists gm', cached (<[n := mk (value v1) (children v1) (Some s)]> h1) m gm').
    { intros m gm (vm & Em & Hgm). destruct (decide (m = n)) as [->|Hne].
      - exists s. eexists. rewrite list_lookup_insert_eq by assumption. eauto.
      - exists gm, vm. now rewrite list_lookup_insert_ne. }
    intros x c Hx (gx & vx & Ex & Hgx) Hedge.
    destruct (decide (x = n)) as [->|Hne].
    + destruct Hedge as (v0 & w & E0 & Hin).
      assert (v0 = v) as -> by congruence.
      destruct (Hch w c Hin) as (gc & Hgc). eauto.
    + rewrite list_lookup_insert_ne in Ex by congruence.
      destruct (X1 x c Hx) as (gc & Hgc); [exists gx, vx; auto|exact Hedge|].
      eauto.
Qed.

(** X6. One request fills the cache for everything it had to compute: after
    [grad(n)] has returned, every node [m] that can be reached from [n] by
    children edges leaving nodes that had no cached gradient has its gradient
    cached, so that a later [grad(m)] returns it with a single frame and
    without touching the store. *)
Theorem grad_caches_downstream (depth : nat) (n m : addr) (h h' : heap)
    (g : float) :
  grad depth n h = Some (g, h') ->
  rtc (expands h) n m ->
  exists gm, cached h' m gm /\
             forall depth', grad (S depth') m h' = Some (gm, h').
Proof.
  intros Hrun Hpath.
  destruct (grad_sound _ _ _ _ _ Hrun) as (_ & _ & Hn).
  pose proof (grad_explores _ _ _ _ _ Hrun) as Hx.
  assert (Hm : exists gm, cached h' m gm).
  { eapply (rtc_ind_r (fun m => exists gm, cached h' m gm) n);
      [eauto| |exact Hpath].
    intros y z _ [Hy Hedge] IH. apply (Hx y z Hy IH Hedge). }
  destruct Hm as (gm & Hgm). exists gm. split; [exact Hgm|].
  intros depth'. now apply grad_cached.
Qed.

Lemma grad_caches_downstream_witness :
  exists gm, cached script_graph_after_x 3%nat gm /\
             forall depth', grad (S depth') 3%nat script_graph_after_x
                            = Some (gm, script_graph_after_x).
Proof.
  eapply (grad_caches_downstream 3 0%nat 3%nat script_graph
            script_graph_after_x).
  - reflexivity.
  - eapply rtc_l; [|apply rtc_refl]. split.
    + eexists. split; reflexivity.
    + exists (mk 0.5 [(4.2, 2%nat); (0.8775825618903728, 3%nat)] None),
        0.8775825618903728.
      split; [reflexivity|]. right. left.
Defined.

(** ** The order of the operands *)

Lemma float_mul_comm x y : x * y = y * x.
Proof.
  apply Prim2SF_inj. rewrite !FloatAxioms.mul_spec.
  destruct (Prim2SF x) as [sx|sx| |sx mx ex], (Prim2SF y) as [sy|sy| |sy my ey];
    try reflexivity; unfold SF64mul, SFmul; rewrite ?(xorb_comm sx sy);
    try reflexivity.
  change (PosDef.Pos.mul mx my) with (mx * my)%positive.
  change (PosDef.Pos.mul my mx) with (my * mx)%positive.
  now rewrite (Pos.mul_comm mx my), (Z.add_comm ex ey).
Qed.

Lemma float_add_comm x y : x + y = y + x.
Proof.
  apply Prim2SF_inj. rewrite !FloatAxioms.add_spec.
  destruct (Prim2SF x) as [sx|sx| |sx mx ex], (Prim2SF y) as [sy|sy| |sy my ey];
    try reflexivity; try (destruct sx, sy; reflexivity).
  unfold SF64add, SFadd. rewrite (Z.min_comm ey ex).
  now rewrite Z.add_comm.
Qed.

(** Two stores that extend the same store by the same node and the same
    edges are the same store. *)
Lemma extends_with_unique h h1 h2 out edges1 edges2 :
  extends_with h h1 out edges1 -> extends_with h h2 out edges2 ->
  (forall n, edges1 n = edges2 n) -> h1 = h2.
Proof.
  intros (_ & L1 & O1 & H1) (_ & L2 & O2 & H2) Hedges.
  apply list_eq. intros i.
  destruct (h !! i) as [v|] eqn:E.
  - now rewrite (H1 i v E), (H2 i v E), Hedges.
  - apply lookup_ge_None in E. destruct (decide (i = length h)) as [->|Hne].
    + congruence.
    + rewrite !(proj2 (lookup_ge_None _ _)) by lia. reflexivity.
Qed.

Lemma edges_swap n a b (ea eb : float * addr) :
  a <> b -> edge_for n a ea ++ edge_for n b eb = edge_for n b eb ++ edge_for n a ea.
Proof.
  intros Hne. unfold edge_for.
  destruct (decide (n = a)), (decide (n = b)); try reflexivity. congruence.
Qed.

(** X7. The order of the operands of a product does not matter:
    [self * other] and [other * self] return the same node and leave the same
    store (the same value, by commutativity of the IEEE product, and the same
    edges on the same nodes). *)
Theorem mul_operands_commute (h : heap) (self other : addr) :
  __mul__ self other h = __mul__ other self h.
Proof.
  destruct (h !! self) as [a|] eqn:Ea, (h !! other) as [b|] eqn:Eb.
  - destruct (mul_effect h self other a b Ea Eb) as (h1 & -> & X1).
    destruct (mul_effect h other self b a Eb Ea) as (h2 & -> & X2).
    f_equal. f_equal. rewrite (float_mul_comm (value b) (value a)) in X2.
    destruct (decide (self = other)) as [->|Hne].
    + assert (a = b) as -> by congruence.
      eapply extends_with_unique; eauto.
    + eapply extends_with_unique; eauto. intros n. now apply edges_swap.
  - destruct (__mul__ self other h) as [[z h1]|] eqn:H1;
      [apply mul_inv in H1 as (? & ? & ? & ?); congruence|].
    destruct (__mul__ other self h) as [[z h2]|] eqn:H2;
      [apply mul_inv in H2 as (? & ? & ? & ?); congruence|reflexivity].
  - destruct (__mul__ self other h) as [[z h1]|] eqn:H1;
      [apply mul_inv in H1 as (? & ? & ? & ?); congruence|].
    destruct (__mul__ other self h) as [[z h2]|] eqn:H2;
      [apply mul_inv in H2 as (? & ? & ? & ?); congruence|reflexivity].
  - destruct (__mul__ self other h) as [[z h1]|] eqn:H1;
      [apply mul_inv in H1 as (? & ? & ? & ?); congruence|].
    destruct (__mul__ other self h) as [[z h2]|] eqn:H2;
      [apply mul_inv in H2 as (? & ? & ? & ?); congruence|reflexivity].
Qed.

(** X8. The order of the operands of a sum does not matter: [self + other]
    and [other + self] return the same node and leave the same store. *)
Theorem add_operands_commute (h : heap) (self other : addr) :
  __add__ self other h = __add__ other self h.
Proof.
  destruct (h !! self) as [a|] eqn:Ea, (h !! other) as [b|] eqn:Eb.
  - destruct (add_effect h self other a b Ea Eb) as (h1 & -> & X1).
    destruct (add_effect h other self b a Eb Ea) as (h2 & -> & X2).
    f_equal. f_equal. rewrite (float_add_comm (value b) (value a)) in X2.
    destruct (decide (self = other)) as [->|Hne].
    + eapply extends_with_unique; eauto.
    + eapply extends_with_unique; eauto. intros n. now apply edges_swap.
  - destruct (__add__ self other h) as [[z h1]|] eqn:H1;
      [apply add_inv in H1 as (? & ? & ? & ?); congruence|].
    destruct (__add__ other self h) as [[z h2]|] eqn:H2;
      [apply add_inv in H2 as (? & ? & ? & ?); congruence|reflexivity].
  - destruct (__add__ self other h) as [[z h1]|] eqn:H1;
      [apply add_inv in H1 as (? & ? & ? & ?); congruence|].
    destruct (__add__ other self h) as [[z h2]|] eqn:H2;
      [apply add_inv in H2 as (? & ? & ? & ?); congruence|reflexivity].
  - destruct (__add__ self other h) as [[z h1]|] eqn:H1;
      [apply add_inv in H1 as (? & ? & ? & ?); congruence|].
    destruct (__add__ other self h) as [[z h2]|] eqn:H2;
      [apply add_inv in H2 as (? & ? & ? & ?); congruence|reflexivity].
Qed.

(** ** The differentiation rules, end to end *)

Lemma sum_over_cached depth h : forall l gs acc,
  Forall2 (fun e gc => cached h e.2 gc) l gs ->
  sum_gen (grad_term (S depth)) l acc h
  = Some (fold_left PrimFloat.add (zip_with (fun e gc => e.1 * gc) l gs) acc, h).
Proof.
  intros l gs acc F. revert acc.
  induction F as [|[w c] gc l gs Hc F IH]; intros acc; [reflexivity|].
  rewrite sum_gen_cons, grad_term_unfold, (grad_cached _ _ _ _ Hc). apply IH.
Qed.

(** When every consumer of an uncached node has its gradient cached, [grad]
    on the node is one pass over its children, two frames deep, and it
    changes nothing but the cache of the node. *)
Lemma grad_over_cached depth h n v gs :
  h !! n = Some v -> grad_value v = None ->
  Forall2 (fun e gc => cached h e.2 gc) (children v) gs ->
  grad (S (S depth)) n h
  = Some (fold_left PrimFloat.add
            (zip_with (fun e gc => e.1 * gc) (children v) gs) 0,
          <[n := mk (value v) (children v)
                    (Some (fold_left PrimFloat.add
                             (zip_with (fun e gc => e.1 * gc) (children v) gs)
                             0))]> h).
Proof.
  intros E Hnone F.
  rewrite grad_unfold, E, Hnone, (sum_over_cached _ _ _ _ _ F).
  now rewrite (set_grad_value_Some _ _ _ _ E).
Qed.

(** The store after two fresh inputs, a binary operation on them whose
    effect is known, and the seeding of its output. *)
Lemma seeded_binary h av bv (op : addr -> addr -> M addr) out wa wb :
  (forall h0 a b va vb, h0 !! a = Some va -> h0 !! b = Some vb ->
     value va = av -> value vb = bv ->
     exists h', op a b h0 = Some (length h0, h') /\
       extends_with h0 h' out
         (fun n => edge_for n a (wa, length h0) ++ edge_for n b (wb, length h0))) ->
  exists h4,
    (let* a := __init__ av in
     let* b := __init__ bv in
     let* z := op a b in
     set_grad_value z 1.0 ;; ret (a, b))%M h
    = Some ((length h, S (length h)), h4) /\
    h4 !! length h = Some (mk av [(wa, S (S (length h)))] None) /\
    h4 !! S (length h) = Some (mk bv [(wb, S (S (length h)))] None) /\
    cached h4 (S (S (length h))) 1.
Proof.
  intros Hop.
  assert (L1 : length (h ++ [mk av [] None]) = S (length h))
    by (rewrite length_app; simpl; lia).
  assert (E1a : (h ++ [mk av [] None]) !! length h = Some (mk av [] None))
    by apply lookup_fresh.
  remember (length h) as a eqn:Ha. remember (h ++ [mk av [] None]) as h1 eqn:Hh1.
  assert (L2 : length (h1 ++ [mk bv [] None]) = S (S a))
    by (rewrite length_app; simpl; lia).
  assert (E2b : (h1 ++ [mk bv [] None]) !! S a = Some (mk bv [] None))
    by (rewrite <- L1; apply lookup_fresh).
  assert (E2a : (h1 ++ [mk bv [] None]) !! a = Some (mk av [] None))
    by (now apply lookup_old).
  remember (h1 ++ [mk bv [] None]) as h2 eqn:Hh2.
  destruct (Hop h2 a (S a) _ _ E2a E2b eq_refl eq_refl)
    as (h3 & Hrun & _ & L3 & E3z & Hold).
  rewrite L2 in Hrun, L3, E3z, Hold.
  pose proof (Hold a _ E2a) as E3a. pose proof (Hold (S a) _ E2b) as E3b.
  rewrite edge_for_same, edge_for_other in E3a by lia.
  rewrite edge_for_other, edge_for_same in E3b by lia.
  simpl in E3a, E3b.
  exists (<[S (S a) := mk (value out) (children out) (Some 1)]> h3).
  split; [|repeat split].
  - unfold bind at 1, __init__ at 1. rewrite <- Ha, <- Hh1.
    unfold bind at 1, __init__ at 1. rewrite L1, <- Hh2.
    unfold bind at 1. rewrite Hrun.
    unfold bind at 1. now rewrite (set_grad_value_Some _ _ _ _ E3z).
  - rewrite list_lookup_insert_ne by lia. exact E3a.
  - rewrite list_lookup_insert_ne by lia. exact E3b.
  - eexists. rewrite list_lookup_insert_eq by lia. eauto.
Qed.

(** The two gradient requests after [seeded_binary]. *)
Lemma two_input_grads depth h4 a b z va vb wa wb :
  a <> b -> a <> z ->
  h4 !! a = Some (mk va [(wa, z)] None) ->
  h4 !! b = Some (mk vb [(wb, z)] None) ->
  cached h4 z 1 ->
  exists h6,
    (let* ga := grad (S (S depth)) a in
     let* gb := grad (S (S depth)) b in
     ret (ga, gb))%M h4
    = Some ((0 + wa * 1, 0 + wb * 1), h6).
Proof.
  intros Hab Haz Ea Eb Hz.
  assert (Fa : Forall2 (fun e gc => cached h4 e.2 gc) [(wa, z)] [1])
    by (repeat constructor; exact Hz).
  pose proof (grad_over_cached depth h4 a _ _ Ea eq_refl Fa) as Ga.
  cbn [children value zip_with fold_left fst] in Ga.
  remember (<[a := mk va [(wa, z)] (Some (0 + wa * 1))]> h4) as h5 eqn:Hh5.
  assert (E5b : h5 !! b = Some (mk vb [(wb, z)] None))
    by (subst h5; now rewrite list_lookup_insert_ne).
  assert (Hz5 : cached h5 z 1).
  { destruct Hz as (vz & Ez & Hg). exists vz.
    subst h5. now rewrite list_lookup_insert_ne. }
  assert (Fb : Forall2 (fun e gc => cached h5 e.2 gc) [(wb, z)] [1])
    by (repeat constructor; exact Hz5).
  pose proof (grad_over_cached depth h5 b _ _ E5b eq_refl Fb) as Gb.
  cbn [children value zip_with fold_left fst] in Gb.
  eexists. unfold bind at 1. rewrite Ga.
  unfold bind at 1. rewrite Gb. reflexivity.
Qed.

Lemma binary_scenario_split (op : addr -> addr -> M addr) depth av bv h :
  (let* a := __init__ av in
   let* b := __init__ bv in
   let* z := op a b in
   set_grad_value z 1.0 ;;
   let* ga := grad depth a in
   let* gb := grad depth b in
   ret (ga, gb))%M h
  = (let* ab := (let* a := __init__ av in
                 let* b := __init__ bv in
                 let* z := op a b in
                 set_grad_value z 1.0 ;; ret (a, b)) in
     let* ga := grad depth ab.1 in
     let* gb := grad depth ab.2 in
     ret (ga, gb))%M h.
Proof.
  unfold bind, __init__, ret.
  destruct (op _ _ _) as [[z h3]|]; [|reflexivity].
  destruct (set_grad_value z 1 h3) as [[u h4]|]; reflexivity.
Qed.

Lemma binary_scenario_run (op : addr -> addr -> M addr) depth h av bv out wa wb :
  (forall h0 a b va vb, h0 !! a = Some va -> h0 !! b = Some vb ->
     value va = av -> value vb = bv ->
     exists h', op a b h0 = Some (length h0, h') /\
       extends_with h0 h' out
         (fun n => edge_for n a (wa, length h0) ++ edge_for n b (wb, length h0))) ->
  exists h',
    (let* a := __init__ av in
     let* b := __init__ bv in
     let* z := op a b in
     set_grad_value z 1.0 ;;
     let* ga := grad (S (S depth)) a in
     let* gb := grad (S (S depth)) b in
     ret (ga, gb))%M h
    = Some ((0 + wa * 1, 0 + wb * 1), h').
Proof.
  intros Hop.
  destruct (seeded_binary h av bv op out wa wb Hop) as (h4 & Hrun & Ea & Eb & Hz).
  assert (Hab : length h <> S (length h)) by lia.
  assert (Haz : length h <> S (S (length h))) by lia.
  destruct (two_input_grads depth h4 _ _ _ _ _ _ _ Hab Haz Ea Eb Hz)
    as (h6 & Hgrads).
  exists h6. rewrite binary_scenario_split. unfold bind at 1. rewrite Hrun.
  exact Hgrads.
Qed.

(** [0 + x * 1.0], the sum over one edge of weight [x] into a node seeded
    with 1.0, is [x] itself unless [x] is [-0.0]; then it is [+0.0]. *)
Lemma one_edge_sum x : x <> neg_zero -> 0 + x * 1 = x.
Proof.
  intros Hx. rewrite float_mul_one_r. apply float_add_zero_l.
  intros E. apply Hx, neg_zero_SF, E.
Qed.

(** X9. The product rule, end to end: for every two floats [av] and [bv]
    and on every store, after [a = Var(av); b = Var(bv); z = a * b] and the
    seeding of [z] with 1.0, [a.grad()] is the float [0 + bv * 1.0] and
    [b.grad()] is the float [0 + av * 1.0]; that is the number or infinity
    [bv], respectively [av], itself (and NaN for NaN), except that for the
    value [-0.0] the gradient comes out as [+0.0]. *)
Theorem product_rule (h : heap) (av bv : float) (depth : nat) :
  exists ga gb h',
    product_grads (S (S depth)) av bv h = Some ((ga, gb), h') /\
    ga = 0 + bv * 1 /\ gb = 0 + av * 1 /\
    (bv <> neg_zero -> ga = bv) /\ (av <> neg_zero -> gb = av) /\
    (bv = neg_zero -> ga = 0) /\ (av = neg_zero -> gb = 0) /\
    (is_nan bv = true -> is_nan ga = true) /\
    (is_nan av = true -> is_nan gb = true).
Proof.
  destruct (binary_scenario_run __mul__ depth h av bv
              (mk (av * bv) [] None) bv av) as (h' & Hrun).
  { intros h0 a b va vb Ea Eb <- <-. apply (mul_effect h0 a b va vb Ea Eb). }
  exists (0 + bv * 1), (0 + av * 1), h'.
  split; [exact Hrun|]. repeat split.
  - apply one_edge_sum.
  - apply one_edge_sum.
  - now intros ->.
  - now intros ->.
  - intros Hn. rewrite one_edge_sum; [exact Hn|]. intros ->. discriminate.
  - intros Hn. rewrite one_edge_sum; [exact Hn|]. intros ->. discriminate.
Qed.

(** X10. The sum rule, end to end: for every two floats and on every store,
    after [a = Var(av); b = Var(bv); z = a + b] and the seeding of [z] with
    1.0, [a.grad()] and [b.grad()] are both exactly 1.0. *)
Theorem sum_rule (h : heap) (av bv : float) (depth : nat) :
  exists h', sum_grads (S (S depth)) av bv h = Some ((1, 1), h').
Proof.
  destruct (binary_scenario_run __add__ depth h av bv
              (mk (av + bv) [] None) 1 1) as (h' & Hrun).
  { intros h0 a b va vb Ea Eb <- <-. apply (add_effect h0 a b va vb Ea Eb). }
  exists h'. exact Hrun.
Qed.

(** X11. The rule for [sin], end to end: for every float [xv] at which
    [math.sin] and [math.cos] return, and on every store, after
    [x = Var(xv); z = sin(x)] and the seeding of [z] with 1.0, [x.grad()] is
    [0 + c * 1.0] for the number [c] that [math.cos(xv)] returned; that is
    [c] itself unless [c] is [-0.0]. *)
Theorem sin_rule (math_sin math_cos : float -> option float)
    (h : heap) (xv s c : float) (depth : nat) :
  math_sin xv = Some s -> math_cos xv = Some c ->
  exists g h',
    sin_grad math_sin math_cos (S (S depth)) xv h = Some (g, h') /\
    g = 0 + c * 1 /\ (c <> neg_zero -> g = c).
Proof.
  intros Hs Hc.
  assert (L1 : length (h ++ [mk xv [] None]) = S (length h))
    by (rewrite length_app; simpl; lia).
  assert (E1x : (h ++ [mk xv [] None]) !! length h = Some (mk xv [] None))
    by apply lookup_fresh.
  remember (length h) as x eqn:Hx. remember (h ++ [mk xv [] None]) as h1 eqn:Hh1.
  destruct (sin_effect math_sin math_cos h1 x _ s c E1x Hs Hc)
    as (h2 & Hsin & _ & L2 & E2z & Hold).
  specialize (Hold x _ E1x). rewrite L1 in Hsin, L2, E2z, Hold.
  rewrite edge_for_same in Hold. simpl in Hold.
  remember (<[S x := mk s [] (Some 1)]> h2) as h3 eqn:Hh3.
  assert (E3x : h3 !! x = Some (mk xv [(c, S x)] None))
    by (subst h3; rewrite list_lookup_insert_ne by lia; exact Hold).
  assert (Hz : cached h3 (S x) 1).
  { eexists. subst h3. rewrite list_lookup_insert_eq by lia. eauto. }
  assert (F : Forall2 (fun e gc => cached h3 e.2 gc) [(c, S x)] [1])
    by (repeat constructor; exact Hz).
  pose proof (grad_over_cached depth h3 x _ _ E3x eq_refl F) as G.
  cbn [children value zip_with fold_left fst] in G.
  exists (0 + c * 1). eexists. split; [|split; [reflexivity|apply one_edge_sum]].
  unfold sin_grad, bind at 1, __init__ at 1. rewrite <- Hx, <- Hh1.
  unfold bind at 1. rewrite Hsin.
  unfold bind at 1. rewrite (set_grad_value_Some _ _ _ _ E2z).
  simpl value. simpl children. rewrite <- Hh3. exact G.
Qed.

Lemma sin_rule_witness :
  exists g h',
    sin_grad sin_half cos_half 2 0.5 [] = Some (g, h') /\
    g = 0 + 0.8775825618903728 * 1 /\
    (0.8775825618903728 <> neg_zero -> g = 0.8775825618903728).
Proof.
  apply (sin_rule sin_half cos_half [] 0.5 0.479425538604203
           0.8775825618903728 0); reflexivity.
Defined.

(** ** Nodes that no seeded node depends on *)

(** X12. A node from which no node with a cached gradient can be reached
    along children edges (it does not feed into any seeded root) has the
    gradient [+0.0], provided the recorded weights are finite: on every
    store the program can reach, [grad] returns [+0.0] for it at every
    recursion depth from the depth of the graph below it on. *)
Theorem unrelated_grad_zero (math_sin math_cos : float -> option float)
    (h : heap) (n : addr) (depth : nat) :
  reachable math_sin math_cos h -> weights_finite h = true ->
  (forall m, rtc (child_edge h) n m -> uncached h m) ->
  (graph_depth h n <= depth)%nat ->
  exists h', grad depth n h = Some (0, h').
Proof.
  intros Hr Hw Hun Hd. pose proof (reachable_edges_later _ _ _ Hr) as Hl.
  pose proof (weights_finite_spec h Hw) as Hfin.
  destruct (Hun n (rtc_refl _ _)) as (vn & En & _).
  pose proof (lookup_lt_Some _ _ _ En) as Hn.
  destruct (grad_returns h n depth Hl Hn Hd) as (g & h' & Hrun).
  destruct (grad_sound _ _ _ _ _ Hrun) as (D & _).
  exists h'. rewrite Hrun. do 2 f_equal.
  enough (H : (forall n g, derivative h n g ->
                 (forall m, rtc (child_edge h) n m -> uncached h m) -> g = 0) /\
              (forall l acc s, weighted_sum h l acc s ->
                 (forall w c, (w, c) ∈ l ->
                    is_finite w = true /\
                    forall m, rtc (child_edge h) c m -> uncached h m) ->
                 acc = 0 -> s = 0)) by (apply (proj1 H n g D Hun)).
  clear - Hfin. apply derivative_weighted_sum_ind.
  - intros n v g E Hg Hun.
    destruct (Hun n (rtc_refl _ _)) as (v' & E' & Hnone). congruence.
  - intros n v s E _ _ IH Hun. apply IH; [|reflexivity].
    intros w c Hin. split.
    + exact (Hfin n v w c E Hin).
    + intros m Hm. apply Hun. eapply rtc_l; [|exact Hm]. exists v, w. auto.
  - intros acc _ Hacc. exact Hacc.
  - intros w c l acc g s _ IHd _ IHs Hl ->.
    assert (Hin : (w, c) ∈ (w, c) :: l) by left.
    destruct (Hl w c Hin) as [Hw Hc]. apply IHs.
    + intros w' c' Hin'. apply Hl. now right.
    + rewrite (IHd Hc). apply float_add_zero_mul_zero, Hw.
Qed.

Lemma seeded_pair_reachable : reachable sin_half cos_half seeded_pair.
Proof.
  unfold reachable.
  eapply rtc_l; [left; eapply (op_init _ _ 1.5); reflexivity|].
  eapply rtc_l; [left; eapply (op_init _ _ 2.5); reflexivity|].
  eapply rtc_l; [right; eapply (op_seed 1); reflexivity|].
  apply rtc_refl.
Qed.

Lemma seeded_pair_first_unrelated m :
  rtc (child_edge seeded_pair) 0%nat m -> uncached seeded_pair m.
Proof.
  intros Hp. inversion Hp as [|? y ? (v & w & E & Hin) _]; subst.
  - eexists. split; reflexivity.
  - injection E as <-. now apply elem_of_nil in Hin.
Qed.

Lemma unrelated_grad_zero_witness :
  exists h', grad 1 0%nat seeded_pair = Some (0, h').
Proof.
  apply (unrelated_grad_zero sin_half cos_half seeded_pair 0%nat 1).
  - exact seeded_pair_reachable.
  - reflexivity.
  - exact seeded_pair_first_unrelated.
  - vm_compute. lia.
Defined.

(** ** What a request leaves alone *)

(** On a store whose edges point to later nodes, [grad(n)] changes no node
    other than [n] and nodes created after [n]. *)
Lemma grad_touches_later depth : forall n h g h',
  edges_later h -> grad depth n h = Some (g, h') ->
  forall m, (m < n)%nat -> h' !! m = h !! m.
Proof.
  induction depth as [|depth IH]; intros n h g h' Hl Hrun m Hm; [discriminate|].
  rewrite grad_unfold in Hrun.
  destruct (h !! n) as [v|] eqn:En; [|discriminate].
  destruct (grad_value v) as [c|] eqn:Ec; [now injection Hrun as <- <-|].
  destruct (sum_gen _ _ _ h) as [[s h1]|] eqn:Es; [|discriminate].
  assert (Hloop : forall l acc h0 s0 h2,
            (forall w c, (w, c) ∈ l -> (n < c)%nat) ->
            edges_later h0 ->
            sum_gen (grad_term depth) l acc h0 = Some (s0, h2) ->
            memo_extends h0 h2 /\ forall k, (k <= n)%nat -> h2 !! k = h0 !! k).
  { clear Es. induction l as [|[w c] l IHl]; intros acc h0 s0 h2 Hgt Hl0 Hsum.
    - injection Hsum as <- <-. split; [apply memo_extends_refl|reflexivity].
    - rewrite sum_gen_cons, grad_term_unfold in Hsum.
      destruct (grad depth c h0) as [[gc h0']|] eqn:Eg; [|discriminate].
      destruct (grad_sound _ _ _ _ _ Eg) as (_ & M0 & _).
      assert (Hnc : (n < c)%nat) by (apply (Hgt w); left).
      destruct (IHl _ _ _ _ (fun w' c' H => Hgt w' c' ltac:(now right))
                  (memo_extends_edges_later _ _ M0 Hl0) Hsum) as (M1 & Hsame).
      split; [eapply memo_extends_trans; eauto|].
      intros k Hk. rewrite (Hsame k Hk). apply (IH c h0 gc h0' Hl0 Eg). lia. }
  destruct (Hloop _ _ _ _ _ (fun w c H => proj1 (Hl n v w c En H)) Hl Es)
    as (M1 & Hsame).
  destruct (proj2 M1 n v En) as (v1 & E1 & _).
  rewrite (set_grad_value_Some _ _ _ _ E1) in Hrun. injection Hrun as <- <-.
  rewrite list_lookup_insert_ne by lia. apply Hsame. lia.
Qed.

(** X13. A request leaves the earlier part of the graph alone: on every
    store the program can reach, [grad(n)] changes nothing in any node that
    was created before [n], not even its cached gradient. *)
Theorem grad_leaves_earlier_nodes (math_sin math_cos : float -> option float)
    (h h' : heap) (n : addr) (depth : nat) (g : float) :
  reachable math_sin math_cos h ->
  grad depth n h = Some (g, h') ->
  forall m, (m < n)%nat -> h' !! m = h !! m.
Proof.
  intros Hr. apply grad_touches_later, (reachable_edges_later _ _ _ Hr).
Qed.

Lemma grad_leaves_earlier_nodes_witness :
  match grad 3 2%nat script_graph with
  | Some (_, h') => h'
  | None => []
  end !! 0%nat = script_graph !! 0%nat.
Proof.
  eapply (grad_leaves_earlier_nodes sin_half cos_half script_graph _ 2%nat 3).
  - exact script_graph_reachable.
  - reflexivity.
  - lia.
Defined.

(** X14. The node created last has no consumer: on every store the program
    can reach, its children list is empty; so unless a gradient was cached
    on it (by seeding it), [grad] on it returns 0 within a single frame,
    whatever the rest of the graph holds. *)
Theorem last_node_is_a_leaf (math_sin math_cos : float -> option float)
    (h : heap) (v : Var.t) :
  reachable math_sin math_cos h ->
  h !! (length h - 1)%nat = Some v ->
  children v = [] /\
  (grad_value v = None ->
   forall depth,
     grad (S depth) (length h - 1)%nat h
     = Some (0, <[(length h - 1)%nat := mk (value v) [] (Some 0)]> h)).
Proof.
  intros Hr E. pose proof (reachable_edges_later _ _ _ Hr) as Hl.
  assert (Hleaf : children v = []).
  { destruct (children v) as [|[w c] l] eqn:Ec; [reflexivity|].
    destruct (Hl _ v w c E) as [? ?]; [rewrite Ec; left|lia]. }
  split; [exact Hleaf|]. intros Hnone depth.
  rewrite grad_unfold, E, Hnone, Hleaf. simpl sum_gen. unfold ret.
  rewrite (set_grad_value_Some _ _ _ _ E). now rewrite Hleaf.
Qed.

Lemma last_node_is_a_leaf_witness :
  children (mk (0.5 * 4.2) [] None) = [] /\
  (grad_value (mk (0.5 * 4.2) [] None) = None ->
   forall depth,
     grad (S depth) (length unseeded_graph - 1)%nat unseeded_graph
     = Some (0, <[(length unseeded_graph - 1)%nat :=
                    mk (value (mk (0.5 * 4.2) [] None)) [] (Some 0)]>
                  unseeded_graph)).
Proof.
  apply (last_node_is_a_leaf sin_half cos_half unseeded_graph).
  - exact (forward_built_reachable _ _ _ unseeded_graph_forward).
  - reflexivity.
Defined.
